(** * Alvart: the photo lifecycle of [src/index.tsx]

    A shallow embedding of the instant-camera application: the frame
    normalizer ([processImage]), the photo store kept in React state
    ([handleCapture], [handleDelete]) with its two local-storage effects,
    the develop tracker ([recentPhotoId] and its timers), the camera's
    shutter ([takePhoto]) and the controls a photo card renders
    ([InstantPhoto]).

    Conventions of the embedding.
    - JavaScript strings are Rocq byte strings (code units below 256:
      ids are decimal digits and data URLs are ASCII).  String values that
      come out of [JSON.parse] are kept as lists of 16-bit code units,
      since an escape may denote any code unit.
    - Integral JavaScript numbers ([Date.now()], video dimensions) are [Z];
      the two halvings of [processImage] are exact rationals ([Q]).
    - React state is an explicit record, [setTimeout] an explicit list of
      pending timers, the browser a record of what it answers. *)

From Stdlib Require Import ZArith QArith String Ascii.
From Stdlib Require Import DecimalString DecimalZ DecimalN DecimalFacts.
From stdpp Require Import base option list sets sorting strings.

Local Open Scope Z_scope.
Set Warnings "-register-all".

(** ** Types (src/index.tsx, lines 5-15) *)

(** [interface Photo { id: string; dataUrl: string; timestamp: number }] *)
Record Photo := mkPhoto {
  id : string;
  dataUrl : string;
  timestamp : Z
}.

Global Instance Photo_eq_dec : EqDecision Photo.
Proof. solve_decision. Defined.

Definition STORAGE_KEY : string := "retro-polaroid-photos".
Definition MAX_STORED_PHOTOS : nat := 50.
Definition DEVELOP_TIME_MS : Z := 1800.

(** ** The platform's JSON codec

    [JSON.stringify] on a [Photo[]] and [JSON.parse] on an arbitrary
    text, following ECMA-262 (SerializeJSONArray/Object, QuoteJSONString,
    and the JSON grammar of ECMA-404). *)
Module JSON.

(** Parsed values.  An integer literal is read as its value, which is
    what JavaScript holds up to [2^53] in magnitude; a literal with a
    fraction or an exponent is kept as its text ([JReal]): this
    application never writes one. [-0] is read as [0]. *)
Inductive json :=
| JNull
| JBool (b : bool)
| JNum (n : Z)
| JReal (lit : string)
| JStr (s : list N)
| JArr (items : list json)
| JObj (members : list (list N * json)).

Abbreviation DQUOTE := ("034"%char) (only parsing).
Abbreviation BACKSLASH := ("092"%char) (only parsing).

Definition code_units (s : string) : list N :=
  N_of_ascii <$> list_ascii_of_string s.

Definition string_of_code_units (u : list N) : option string :=
  if forallb (λ n, n <? 256)%N u
  then Some (string_of_list_ascii (ascii_of_N <$> u))
  else None.

(** *** Serialization *)

Definition hex_digit (n : N) : ascii :=
  if (n <? 10)%N then ascii_of_N (48 + n) else ascii_of_N (87 + n).

(** One code unit of QuoteJSONString: the two-character escapes of
    Table 75, [\u00xx] (lower case) for the other control characters,
    the character itself otherwise. *)
Definition quote_char (c : ascii) : string :=
  let n := N_of_ascii c in
  if (n =? 8)%N then String BACKSLASH "b"
  else if (n =? 9)%N then String BACKSLASH "t"
  else if (n =? 10)%N then String BACKSLASH "n"
  else if (n =? 12)%N then String BACKSLASH "f"
  else if (n =? 13)%N then String BACKSLASH "r"
  else if (n =? 34)%N then String BACKSLASH (String DQUOTE "")
  else if (n =? 92)%N then String BACKSLASH (String BACKSLASH "")
  else if (n <? 32)%N then
    String BACKSLASH
      (String "u" (String "0" (String "0"
        (String (hex_digit (n / 16)) (String (hex_digit (n mod 16)) "")))))
  else String c "".

Fixpoint quote_chars (s : string) : string :=
  match s with
  | EmptyString => EmptyString
  | String c r => quote_char c +:+ quote_chars r
  end.

Definition quote (s : string) : string :=
  String DQUOTE (quote_chars s +:+ String DQUOTE "").

(** [Number.prototype.toString] on an integral number, which is also how
    [JSON.stringify] writes it (below 1e21 in magnitude, where
    JavaScript switches to exponent notation; [Date.now()] stays below
    8.64e15). *)
Definition Number_toString (n : Z) : string :=
  NilZero.string_of_int (Z.to_int n).

(** SerializeJSONObject on a [Photo]: own keys in creation order, no
    gap. *)
Definition stringify_photo (p : Photo) : string :=
  "{" +:+ quote "id" +:+ ":" +:+ quote (id p) +:+ ","
      +:+ quote "dataUrl" +:+ ":" +:+ quote (dataUrl p) +:+ ","
      +:+ quote "timestamp" +:+ ":" +:+ Number_toString (timestamp p)
      +:+ "}".

Fixpoint stringify_items (l : list Photo) : string :=
  match l with
  | [] => ""
  | [p] => stringify_photo p
  | p :: l' => stringify_photo p +:+ "," +:+ stringify_items l'
  end.

(** [JSON.stringify(photos)] for [photos : Photo[]]. *)
Definition stringify (l : list Photo) : string :=
  "[" +:+ stringify_items l +:+ "]".

(** *** Parsing *)

Definition is_ws (c : ascii) : bool :=
  let n := N_of_ascii c in
  ((n =? 32) || (n =? 9) || (n =? 10) || (n =? 13))%N.

Fixpoint skip_ws (s : string) : string :=
  match s with
  | String c r => if is_ws c then skip_ws r else s
  | EmptyString => s
  end.

Definition is_digit (c : ascii) : bool :=
  let n := N_of_ascii c in ((48 <=? n) && (n <=? 57))%N.

Definition hex_value (c : ascii) : option N :=
  let n := N_of_ascii c in
  if ((48 <=? n) && (n <=? 57))%N then Some (n - 48)%N
  else if ((97 <=? n) && (n <=? 102))%N then Some (n - 87)%N
  else if ((65 <=? n) && (n <=? 70))%N then Some (n - 55)%N
  else None.

(** The code unit an escape letter stands for. *)
Definition escape_value (c : ascii) : option N :=
  let n := N_of_ascii c in
  if (n =? 34)%N then Some 34%N
  else if (n =? 92)%N then Some 92%N
  else if (n =? 47)%N then Some 47%N
  else if (n =? 98)%N then Some 8%N
  else if (n =? 102)%N then Some 12%N
  else if (n =? 110)%N then Some 10%N
  else if (n =? 114)%N then Some 13%N
  else if (n =? 116)%N then Some 9%N
  else None.

(** The characters of a string literal, after its opening quote and up
    to its closing one. *)
Fixpoint parse_chars (s : string) : option (list N * string) :=
  match s with
  | EmptyString => None
  | String c r =>
      if (c =? DQUOTE)%char then Some ([], r)
      else if (c =? BACKSLASH)%char then
        match r with
        | String e r1 =>
            if (e =? "u")%char then
              match r1 with
              | String h1 (String h2 (String h3 (String h4 r2))) =>
                  a ← hex_value h1; b ← hex_value h2;
                  c' ← hex_value h3; d ← hex_value h4;
                  '(u, r3) ← parse_chars r2;
                  Some ((((a * 16 + b) * 16 + c') * 16 + d)%N :: u, r3)
              | _ => None
              end
            else
              v ← escape_value e;
              '(u, r3) ← parse_chars r1;
              Some (v :: u, r3)
        | EmptyString => None
        end
      else if (N_of_ascii c <? 32)%N then None
      else '(u, r1) ← parse_chars r; Some (N_of_ascii c :: u, r1)
  end.

(** The longest prefix of digits, and what follows it. *)
Fixpoint scan_digits (s : string) : string * string :=
  match s with
  | String c r =>
      if is_digit c
      then let '(ds, r') := scan_digits r in (String c ds, r')
      else (EmptyString, s)
  | EmptyString => (EmptyString, EmptyString)
  end.

(** The integer part of a number: [0], or digits not starting with 0. *)
Definition valid_int_part (ds : string) : bool :=
  match ds with
  | EmptyString => false
  | String c EmptyString => true
  | String c _ => negb (c =? "0")%char
  end.

Definition scan_fraction (s : string) : option (string * string) :=
  match s with
  | String c r =>
      if (c =? ".")%char then
        let '(ds, r') := scan_digits r in
        match ds with
        | EmptyString => None
        | _ => Some (String c ds, r')
        end
      else Some (EmptyString, s)
  | EmptyString => Some (EmptyString, s)
  end.

Definition scan_exponent (s : string) : option (string * string) :=
  match s with
  | String c r =>
      if ((c =? "e") || (c =? "E"))%char then
        let '(sign, r0) :=
          match r with
          | String c' r' =>
              if ((c' =? "+") || (c' =? "-"))%char
              then (String c' EmptyString, r') else (EmptyString, r)
          | EmptyString => (EmptyString, r)
          end in
        let '(ds, r') := scan_digits r0 in
        match ds with
        | EmptyString => None
        | _ => Some (String c (sign +:+ ds), r')
        end
      else Some (EmptyString, s)
  | EmptyString => Some (EmptyString, s)
  end.

(** A number after its sign. *)
Definition parse_magnitude (neg : bool) (s0 : string)
  : option (json * string) :=
  let '(ds, r1) := scan_digits s0 in
  if valid_int_part ds then
    '(frac, r2) ← scan_fraction r1;
    '(ex, r3) ← scan_exponent r2;
    match frac, ex with
    | EmptyString, EmptyString =>
        u ← NilEmpty.uint_of_string ds;
        let n := Z.of_N (N.of_uint u) in
        Some (JNum (if neg then - n else n), r3)
    | _, _ =>
        Some (JReal ((if neg then "-" else "") +:+ ds +:+ frac +:+ ex), r3)
    end
  else None.

Definition parse_number (s : string) : option (json * string) :=
  match s with
  | String c r =>
      if (c =? "-")%char then parse_magnitude true r
      else parse_magnitude false s
  | EmptyString => None
  end.

(** Whether a number literal may stop before [rest]. *)
Definition number_end (rest : string) : bool :=
  match rest with
  | EmptyString => true
  | String c _ =>
      negb (is_digit c || (c =? ".") || (c =? "e") || (c =? "E"))%char
  end.

(** [expect lit s]: [s] without its prefix [lit]. *)
Fixpoint expect (lit s : string) : option string :=
  match lit with
  | EmptyString => Some s
  | String c lit' =>
      match s with
      | String c' s' => if (c =? c')%char then expect lit' s' else None
      | EmptyString => None
      end
  end.

(** Recursive descent over the JSON grammar.  Each production is written
    over the parsers of the productions it refers to. *)

(** After an array element: a comma and the remaining elements, or the
    closing bracket. *)
Definition element_next (more : string → option (list json * string))
    (v : json) (r : string) : option (list json * string) :=
  match skip_ws r with
  | String c r' =>
      if (c =? ",")%char then '(l, r1) ← more r'; Some (v :: l, r1)
      else if (c =? "]")%char then Some ([v], r')
      else None
  | EmptyString => None
  end.

Definition elements_with (pv : string → option (json * string))
    (more : string → option (list json * string)) (s : string)
  : option (list json * string) :=
  '(v, r) ← pv s; element_next more v r.

(** After a member's value: a comma and the remaining members, or the
    closing brace. *)
Definition member_next
    (more : string → option (list (list N * json) * string))
    (k : list N) (v : json) (r : string)
  : option (list (list N * json) * string) :=
  match skip_ws r with
  | String c r' =>
      if (c =? ",")%char then '(l, r1) ← more r'; Some ((k, v) :: l, r1)
      else if (c =? "}")%char then Some ([(k, v)], r')
      else None
  | EmptyString => None
  end.

(** After a member's key: the colon and the value. *)
Definition member_value (pv : string → option (json * string))
    (more : string → option (list (list N * json) * string))
    (k : list N) (r1 : string) : option (list (list N * json) * string) :=
  match skip_ws r1 with
  | String c r2 =>
      if (c =? ":")%char then '(v, r) ← pv r2; member_next more k v r
      else None
  | EmptyString => None
  end.

Definition members_with (pv : string → option (json * string))
    (more : string → option (list (list N * json) * string)) (s : string)
  : option (list (list N * json) * string) :=
  match skip_ws s with
  | String q r0 =>
      if (q =? DQUOTE)%char
      then '(k, r1) ← parse_chars r0; member_value pv more k r1
      else None
  | EmptyString => None
  end.

Definition value_with (pe : string → option (list json * string))
    (pm : string → option (list (list N * json) * string)) (s : string)
  : option (json * string) :=
  match skip_ws s with
  | EmptyString => None
  | String c r =>
      if (c =? "[")%char then
        match skip_ws r with
        | String c' r' =>
            if (c' =? "]")%char then Some (JArr [], r')
            else '(l, r1) ← pe r; Some (JArr l, r1)
        | EmptyString => None
        end
      else if (c =? "{")%char then
        match skip_ws r with
        | String c' r' =>
            if (c' =? "}")%char then Some (JObj [], r')
            else '(l, r1) ← pm r; Some (JObj l, r1)
        | EmptyString => None
        end
      else if (c =? DQUOTE)%char then
        '(u, r1) ← parse_chars r; Some (JStr u, r1)
      else if (c =? "t")%char then
        r1 ← expect "rue" r; Some (JBool true, r1)
      else if (c =? "f")%char then
        r1 ← expect "alse" r; Some (JBool false, r1)
      else if (c =? "n")%char then
        r1 ← expect "ull" r; Some (JNull, r1)
      else parse_number (String c r)
  end.

(** The three productions tied together; [fuel] bounds the depth of the
    calls. *)
Fixpoint parse_value (fuel : nat) (s : string) {struct fuel}
  : option (json * string) :=
  match fuel with
  | O => None
  | S fuel => value_with (parse_elements fuel) (parse_members fuel) s
  end
with parse_elements (fuel : nat) (s : string) {struct fuel}
  : option (list json * string) :=
  match fuel with
  | O => None
  | S fuel => elements_with (parse_value fuel) (parse_elements fuel) s
  end
with parse_members (fuel : nat) (s : string) {struct fuel}
  : option (list (list N * json) * string) :=
  match fuel with
  | O => None
  | S fuel => members_with (parse_value fuel) (parse_members fuel) s
  end.

(** [JSON.parse(text)]: [None] stands for the [SyntaxError] it throws. *)
Definition parse (text : string) : option json :=
  match parse_value (2 * String.length text + 2) text with
  | Some (v, r) =>
      match skip_ws r with
      | EmptyString => Some v
      | _ => None
      end
  | None => None
  end.

(** The value [JSON.parse] builds for what [stringify] wrote. *)
Definition json_of_photo (p : Photo) : json :=
  JObj [ (code_units "id", JStr (code_units (id p)));
         (code_units "dataUrl", JStr (code_units (dataUrl p)));
         (code_units "timestamp", JNum (timestamp p)) ].

Definition json_of_photos (l : list Photo) : json :=
  JArr (json_of_photo <$> l).

(** Reading a parsed value as a [Photo[]]: an array of objects with
    exactly the three fields, as this application writes them. *)
Definition photo_of_json (v : json) : option Photo :=
  match v with
  | JObj [ (k1, JStr i); (k2, JStr d); (k3, JNum t) ] =>
      if decide (k1 = code_units "id" ∧ k2 = code_units "dataUrl"
                 ∧ k3 = code_units "timestamp")
      then i' ← string_of_code_units i;
           d' ← string_of_code_units d;
           Some (mkPhoto i' d' t)
      else None
  | _ => None
  end.

Definition photos_of_json (v : json) : option (list Photo) :=
  match v with
  | JArr l => mapM photo_of_json l
  | _ => None
  end.

End JSON.

(** ** The browser

    What the page asks of its environment.  [t] is the time of the event
    loop in milliseconds. *)

(** The [<video>] element as [processImage] reads it. *)
Record Video := mkVideo {
  videoWidth : Z;
  videoHeight : Z
}.

(** The calls made on a 2D context, in order. *)
Inductive CanvasOp :=
| drawImage (sx sy sw sh : Q) (dx dy dw dh : Z)
| set_globalCompositeOperation (op : string)
| set_fillStyle (style : string)
| fillRect (x y w h : Z).

Record Canvas := mkCanvas {
  canvas_width : Z;
  canvas_height : Z;
  canvas_ops : list CanvasOp
}.

Record Browser := mkBrowser {
  (** [Date.now()] read at time [t] *)
  Date_now : Z → Z;
  (** [videoRef.current] at time [t]: [None] when no [<video>] is mounted *)
  videoRef_current : Z → option Video;
  (** whether [canvas.getContext('2d')] yields a context at time [t] *)
  getContext_2d : Z → bool;
  (** [canvas.toDataURL('image/jpeg', 0.7)] *)
  toDataURL : Canvas → string;
  (** whether [localStorage.setItem] stores the text (it throws otherwise) *)
  setItem_accepts : string → bool
}.

(** ** Frame normalizer (src/index.tsx, lines 27-48) *)

(** The canvas [processImage] has drawn when a context was obtained. *)
Definition processImage_canvas (video : Video) : Canvas :=
  let size := 600 in
  let minDim := Z.min (videoWidth video) (videoHeight video) in
  let startX := (inject_Z (videoWidth video - minDim) / 2)%Q in
  let startY := (inject_Z (videoHeight video - minDim) / 2)%Q in
  {| canvas_width := size;
     canvas_height := size;
     canvas_ops :=
       [ drawImage startX startY (inject_Z minDim) (inject_Z minDim)
                   0 0 size size;
         set_globalCompositeOperation "overlay";
         set_fillStyle "rgba(100, 50, 0, 0.1)";
         fillRect 0 0 size size ] |}.

Definition processImage (B : Browser) (t : Z) (video : Video) : string :=
  if negb (getContext_2d B t) then ""
  else toDataURL B (processImage_canvas video).

(** ** Application state *)

(** The callbacks handed to [setTimeout]. *)
Inductive Callback :=
| cb_flash_off      (* () => setIsFlashing(false), line 332 *)
| cb_shoot          (* the capture callback of takePhoto, lines 337-343 *)
| cb_printing_off   (* () => setPrinting(false), line 341 *)
| cb_develop_done   (* () => setRecentPhotoId(null), lines 452-454 *).

Record Timer := mkTimer {
  due : Z;
  callback : Callback
}.

Record World := mkWorld {
  (* App *)
  photos : list Photo;
  recentPhotoId : option string;
  (* RetroCamera *)
  flash : bool;
  isFlashing : bool;
  printing : bool;
  (* localStorage, under STORAGE_KEY *)
  storage : option string;
  (* event loop *)
  clock : Z;
  timers : list Timer
}.

Definition setPhotos (f : list Photo → list Photo) (w : World) : World :=
  mkWorld (f (photos w)) (recentPhotoId w) (flash w) (isFlashing w)
          (printing w) (storage w) (clock w) (timers w).

Definition setRecentPhotoId (v : option string) (w : World) : World :=
  mkWorld (photos w) v (flash w) (isFlashing w)
          (printing w) (storage w) (clock w) (timers w).

Definition setFlash (b : bool) (w : World) : World :=
  mkWorld (photos w) (recentPhotoId w) b (isFlashing w)
          (printing w) (storage w) (clock w) (timers w).

Definition setIsFlashing (b : bool) (w : World) : World :=
  mkWorld (photos w) (recentPhotoId w) (flash w) b
          (printing w) (storage w) (clock w) (timers w).

Definition setPrinting (b : bool) (w : World) : World :=
  mkWorld (photos w) (recentPhotoId w) (flash w) (isFlashing w)
          b (storage w) (clock w) (timers w).

Definition localStorage_set (text : string) (w : World) : World :=
  mkWorld (photos w) (recentPhotoId w) (flash w) (isFlashing w)
          (printing w) (Some text) (clock w) (timers w).

Definition set_clock (t : Z) (w : World) : World :=
  mkWorld (photos w) (recentPhotoId w) (flash w) (isFlashing w)
          (printing w) (storage w) t (timers w).

Definition set_timers (l : list Timer) (w : World) : World :=
  mkWorld (photos w) (recentPhotoId w) (flash w) (isFlashing w)
          (printing w) (storage w) (clock w) l.

(** [setTimeout(cb, delay)]: a new timer, behind those already pending. *)
Definition setTimeout (cb : Callback) (delay : Z) (w : World) : World :=
  set_timers (timers w ++ [mkTimer (clock w + delay) cb]) w.

(** State of [App] and [RetroCamera] at their first render, over what
    local storage holds. *)
Definition initial (stored : option string) : World :=
  mkWorld [] None true false false stored 0 [].

(** ** Photo store (src/index.tsx, lines 416-460) *)

(** Save effect, lines 433-439: runs after each render in which [photos]
    is a new array; a rejected write is caught and logged. *)
Definition save_effect (B : Browser) (w : World) : World :=
  let text := JSON.stringify (take MAX_STORED_PHOTOS (photos w)) in
  if setItem_accepts B text then localStorage_set text w else w.

(** What the load effect, lines 421-430, does to the [photos] state. *)
Inductive LoadResult :=
| Kept                       (* [setPhotos] is not called *)
| Restored (l : list Photo)  (* [setPhotos] with the parsed [Photo[]] *)
| Untyped (v : JSON.json)    (* [setPhotos] with any other parsed value *).

Definition load_effect (stored : option string) : LoadResult :=
  match stored with
  | None => Kept
  | Some EmptyString => Kept
  | Some text =>
      match JSON.parse text with
      | None => Kept
      | Some v =>
          match JSON.photos_of_json v with
          | Some l => Restored l
          | None => Untyped v
          end
      end
  end.

(** The sequence [photos] holds once the load effect has run on the
    initial state [[]]; nothing for a value that is not a [Photo[]], which
    the typed state of this model cannot hold. *)
Definition load (stored : option string) : option (list Photo) :=
  match load_effect stored with
  | Kept => Some []
  | Restored l => Some l
  | Untyped _ => None
  end.

(** The value [setPhotos] is called with by the load effect, if it is
    called: whatever [JSON.parse] returned (line 425). *)
Definition setPhotos_argument (r : LoadResult) : option JSON.json :=
  match r with
  | Kept => None
  | Restored l => Some (JSON.json_of_photos l)
  | Untyped v => Some v
  end.



(** Mounting [App]: both effects run after the first render (the save
    effect still sees [[]]), and the save effect runs again after the
    render that [setPhotos] caused. *)
Definition mount (B : Browser) (stored : option string) : option World :=
  let w := save_effect B (initial stored) in
  match load_effect stored with
  | Kept => Some w
  | Restored l => Some (save_effect B (setPhotos (λ _, l) w))
  | Untyped _ => None
  end.

(** [handleCapture], lines 441-455; [now_id] and [now_ts] are its two
    readings of [Date.now()]. *)
Definition handleCapture (now_id now_ts : Z) (dataUrl : string) (w : World)
  : World :=
  let newPhoto :=
    {| id := JSON.Number_toString now_id;
       dataUrl := dataUrl;
       timestamp := now_ts |} in
  setTimeout cb_develop_done DEVELOP_TIME_MS
    (setRecentPhotoId (Some (id newPhoto))
      (setPhotos (λ prev, newPhoto :: prev) w)).

(** [handleDelete], lines 457-460. *)
Definition handleDelete (i : string) (w : World) : World :=
  setPhotos (λ prev, filter (λ p, id p ≠ i) prev) w.

(** The store's two writes, each followed by the save effect its new
    [photos] array triggers. *)
Definition add (B : Browser) (now_id now_ts : Z) (dataUrl : string)
    (w : World) : World :=
  save_effect B (handleCapture now_id now_ts dataUrl w).

Definition remove (B : Browser) (i : string) (w : World) : World :=
  save_effect B (handleDelete i w).

(** ** Camera (src/index.tsx, lines 327-344) *)

Definition takePhoto (B : Browser) (w : World) : World :=
  match videoRef_current B (clock w) with
  | None => w
  | Some _ =>
      if printing w then w
      else
        let w1 :=
          if flash w
          then setTimeout cb_flash_off 100 (setIsFlashing true w)
          else w in
        setTimeout cb_shoot 200 (setPrinting true w1)
  end.

(** What a timer does when it fires.  A callback takes no time here: the
    two readings of [Date.now()] in [handleCapture] are both the one at
    the firing time. *)
Definition run_callback (B : Browser) (cb : Callback) (w : World) : World :=
  match cb with
  | cb_flash_off => setIsFlashing false w
  | cb_shoot =>
      match videoRef_current B (clock w) with
      | Some video =>
          let dataUrl := processImage B (clock w) video in
          let now := Date_now B (clock w) in
          setTimeout cb_printing_off 800 (add B now now dataUrl w)
      | None => w
      end
  | cb_printing_off => setPrinting false w
  | cb_develop_done => setRecentPhotoId None w
  end.

(** ** Photo card (src/index.tsx, lines 158-292) *)

Inductive Control := DeleteButton | CopyButton | DownloadButton.

Global Instance Control_eq_dec : EqDecision Control.
Proof. solve_decision. Defined.

Record Card := mkCard {
  card_photo : Photo;
  card_developing : bool;
  card_controls : list Control
}.

(** The two conditional blocks of the card, lines 242 and 265. *)
Definition InstantPhoto (photo : Photo) (developing : bool) : Card :=
  {| card_photo := photo;
     card_developing := developing;
     card_controls :=
       (if negb developing then [DeleteButton] else [])
       ++ (if negb developing then [CopyButton; DownloadButton] else []) |}.

(** [photo.id === recentPhotoId], line 491. *)
Definition developing (w : World) (photo : Photo) : bool :=
  bool_decide (Some (id photo) = recentPhotoId w).

(** The cards [App] renders, lines 487-494. *)
Definition App_cards (w : World) : list Card :=
  (λ photo, InstantPhoto photo (developing w photo)) <$> photos w.


(** ** Event loop *)

Inductive Event :=
| click_shutter
| click_flash
| click (k : nat) (c : Control)   (* control [c] of the [k]-th card *)
| timeout                         (* the next pending timer fires, on time *)
| idle (dt : Z)                   (* [dt] ms pass, no timer is overdue *).

(** The pending timer that fires next: the earliest due, the first set
    among equals; with it, the timers that stay. *)
Fixpoint next_timer (l : list Timer) : option (Timer * list Timer) :=
  match l with
  | [] => None
  | tm :: l' =>
      match next_timer l' with
      | Some (tm', rest) =>
          if due tm <=? due tm' then Some (tm, l')
          else Some (tm', tm :: rest)
      | None => Some (tm, [])
      end
  end.

Definition step (B : Browser) (w : World) (e : Event) : option World :=
  match e with
  | click_shutter =>
      if printing w then None else Some (takePhoto B w)
  | click_flash => Some (setFlash (negb (flash w)) w)
  | click k c =>
      card ← App_cards w !! k;
      if decide (c ∈ card_controls card) then
        match c with
        | DeleteButton => Some (remove B (id (card_photo card)) w)
        | CopyButton | DownloadButton => Some w  (* card-local state only *)
        end
      else None
  | timeout =>
      '(tm, rest) ← next_timer (timers w);
      Some (run_callback B (callback tm)
              (set_timers rest (set_clock (Z.max (clock w) (due tm)) w)))
  | idle dt =>
      if decide (0 ≤ dt ∧ Forall (λ tm, clock w + dt ≤ due tm) (timers w))
      then Some (set_clock (clock w + dt) w)
      else None
  end.

Fixpoint run (B : Browser) (w : World) (es : list Event) : option World :=
  match es with
  | [] => Some w
  | e :: es' => w' ← step B w e; run B w' es'
  end.

(** ** Sequences of store operations *)

Inductive StoreOp :=
| op_add (now_id now_ts : Z) (dataUrl : string)
| op_remove (i : string).

Definition apply_op (B : Browser) (w : World) (op : StoreOp) : World :=
  match op with
  | op_add now_id now_ts dataUrl => add B now_id now_ts dataUrl w
  | op_remove i => remove B i w
  end.

Definition apply_ops (B : Browser) (w : World) (ops : list StoreOp) : World :=
  foldl (apply_op B) w ops.

(** The photo an [add] creates. *)
Definition new_photo (now_id now_ts : Z) (dataUrl : string) : Photo :=
  mkPhoto (JSON.Number_toString now_id) dataUrl now_ts.

(** ** Scenarios *)

(** A browser with a 1920x1080 camera, a working canvas, a clock that reads
    the event-loop time and a storage that accepts every write. *)
Definition plain_browser : Browser :=
  mkBrowser (λ t, t) (λ _, Some (mkVideo 1920 1080)) (λ _, true)
            (λ _, "data:image/jpeg;base64,/9j/4AAQ") (λ _, true).

(** The same browser, but [getContext('2d')] returns [null]. *)
Definition contextless_browser : Browser :=
  mkBrowser (λ t, t) (λ _, Some (mkVideo 1920 1080)) (λ _, false)
            (λ _, "data:image/jpeg;base64,/9j/4AAQ") (λ _, true).

(** The same browser, but the stream has not started: the video element
    reports 0x0. *)
Definition streamless_browser : Browser :=
  mkBrowser (λ t, t) (λ _, Some (mkVideo 0 0)) (λ _, true)
            (λ _, "data:image/jpeg;base64,/9j/4AAQ") (λ _, true).

(** A capture: the two clock readings and the payload. *)
Definition Capture : Type := Z * Z * string.

Definition photo_of_capture (c : Capture) : Photo :=
  new_photo c.1.1 c.1.2 c.2.

Definition adds (cs : list Capture) : list StoreOp :=
  (λ c : Capture, op_add c.1.1 c.1.2 c.2) <$> cs.

(** The clock readings from which a sequence of operations derives ids. *)
Definition id_readings (ops : list StoreOp) : list Z :=
  omap (λ op, match op with
              | op_add now_id _ _ => Some now_id
              | op_remove _ => None
              end) ops.

(** [n] captures, one per millisecond from 1 to [n]. *)
Definition burst (n : nat) : list Capture :=
  (λ k, (Z.of_nat k, Z.of_nat k, "data:,"%string)) <$> seq 1 n.

(** One press of the shutter, up to the moment the camera is ready
    again: flash off at +100, capture at +200, printing off at +1000. *)
Definition shot : list Event := [click_shutter; timeout; timeout; timeout].

(** ** Runs of the camera: what is pending, and which clocks are steady *)

Global Instance Callback_eq_dec : EqDecision Callback.
Proof. solve_decision. Defined.

(** The pending timers that will run callback [cb]. *)
Definition pending (cb : Callback) (l : list Timer) : list Timer :=
  filter (λ tm, callback tm = cb) l.



(** How often the shutter is pressed in a run. *)
Global Instance Event_eq_dec : EqDecision Event.
Proof. solve_decision. Defined.

Definition shutter_presses (es : list Event) : nat :=
  length (filter (λ e, e = click_shutter) es).

(** A browser whose [<video>] element is unmounted after the shutter was
    pressed at time 0. *)
Definition vanishing_video_browser : Browser :=
  mkBrowser (λ t, t)
            (λ t, if t <=? 0 then Some (mkVideo 1920 1080) else None)
            (λ _, true) (λ _, "data:image/jpeg;base64,/9j/4AAQ") (λ _, true).

(** A browser whose storage has room for the empty array only. *)
Definition full_storage_browser : Browser :=
  mkBrowser (λ t, t) (λ _, Some (mkVideo 1920 1080)) (λ _, true)
            (λ _, "data:image/jpeg;base64,/9j/4AAQ")
            (λ text, bool_decide (text = "[]"%string)).

(** *** What a run of the camera keeps true *)







(** ** Frame composer and export actions
    (src/index.tsx, lines 51-112 and 166-205) *)

(** The calls [generatePolaroidCanvas] makes on its 2D context, in order.
    A gradient is recorded where it becomes the fill style, with the line
    it runs along and its colour stops. *)
Inductive ComposerOp :=
| co_fillStyle (style : string)
| co_fillStyle_gradient (x0 y0 x1 y1 : Z) (stops : list (Z * string))
| co_fillRect (x y w h : Z)
| co_drawImage (src : string) (dx dy dw dh : Z)
| co_strokeStyle (style : string)
| co_lineWidth (n : Z)
| co_strokeRect (x y w h : Z)
| co_globalCompositeOperation (op : string)
| co_font (font : string)
| co_textAlign (align : string)
| co_textBaseline (baseline : string)
| co_save
| co_translate (x y : Q)
| co_rotate (angle : Q)
| co_fillText (text : string) (x y : Z)
| co_restore.

Record Composite := mkComposite {
  composite_width : Z;
  composite_height : Z;
  composite_ops : list ComposerOp
}.

Inductive ComposeError :=
| NoCanvasContext    (* [throw new Error('No canvas context')], line 54 *)
| ImageLoadFailed    (* [img.onerror = reject], line 61 *).

(** What the export code asks of the browser. *)
Record Exporter := mkExporter {
  (** whether [canvas.getContext('2d')] yields a context, line 53 *)
  export_getContext : bool;
  (** whether the image with this [src] loads ([onload], not [onerror]) *)
  image_loads : string → bool;
  (** [formatDate], lines 17-24: [toLocaleDateString('en-US', ...)] *)
  formatDate : Z → string;
  (** [canvas.toDataURL('image/png')] *)
  toDataURL_png : Composite → string;
  (** the blob [canvas.toBlob(..., 'image/png')] hands to its callback,
      [None] for [null] *)
  toBlob_png : Composite → option string;
  (** whether building the clipboard item and [navigator.clipboard.write]
      succeed for this blob *)
  clipboard_write : string → bool
}.

Definition generatePolaroidCanvas (E : Exporter) (photo : Photo)
  : ComposeError + Composite :=
  if negb (export_getContext E) then inl NoCanvasContext
  else if negb (image_loads E (dataUrl photo)) then inl ImageLoadFailed
  else
    let photoSize := 600 in
    let paddingX := 40 in
    let paddingTop := 40 in
    let paddingBottom := 120 in
    let width := photoSize + paddingX * 2 in
    let height := photoSize + paddingTop + paddingBottom in
    let textX := (inject_Z width / 2)%Q in
    let textY := (inject_Z (paddingTop + photoSize)
                  + inject_Z paddingBottom / 2 - 5)%Q in
    inr {| composite_width := width;
           composite_height := height;
           composite_ops :=
             [ co_fillStyle "#ffffff";
               co_fillRect 0 0 width height;
               co_drawImage (dataUrl photo)
                            paddingX paddingTop photoSize photoSize;
               co_strokeStyle "rgba(0,0,0,0.05)";
               co_lineWidth 1;
               co_strokeRect paddingX paddingTop photoSize photoSize;
               co_fillStyle_gradient
                 paddingX paddingTop
                 (paddingX + photoSize) (paddingTop + photoSize)
                 [(0, "rgba(255,255,255,0.1)"%string);
                  (1, "rgba(0,0,0,0.1)"%string)];
               co_globalCompositeOperation "overlay";
               co_fillRect paddingX paddingTop photoSize photoSize;
               co_globalCompositeOperation "source-over";
               co_font ("400 48px " +:+ String "034"%char
                          ("Caveat" +:+ String "034"%char ", cursive"));
               co_fillStyle "#4b5563";
               co_textAlign "center";
               co_textBaseline "middle";
               co_save;
               co_translate textX textY;
               co_rotate (- (2 # 100))%Q;
               co_fillText (formatDate E (timestamp photo)) 0 0;
               co_restore ] |}.




(** *** The card's own state (lines 163-205) *)

Record CardState := mkCardState {
  copied : bool;
  isProcessing : bool;
  (** pending [setTimeout(() => setCopied(false), 2000)] *)
  copied_resets : nat;
  (** blobs written to the clipboard, the latest first *)
  clipboard : list string;
  (** file name and [href] of the links clicked, the latest first *)
  downloads : list (string * string);
  (** how often [alert] was shown *)
  alerts : nat
}.

Definition card_initial : CardState := mkCardState false false 0 [] [] 0.

Definition setIsProcessing (b : bool) (s : CardState) : CardState :=
  mkCardState (copied s) b (copied_resets s) (clipboard s) (downloads s)
              (alerts s).

(** [handleCopy], lines 166-188, from the click to the end of its last
    callback.  When [toBlob] hands over [null] the callback throws before
    it reaches [setIsProcessing(false)]. *)
Definition handleCopy (E : Exporter) (photo : Photo) (s : CardState)
  : CardState :=
  let s1 := setIsProcessing true s in
  match generatePolaroidCanvas E photo with
  | inl _ => setIsProcessing false s1
  | inr canvas =>
      match toBlob_png E canvas with
      | None => s1
      | Some blob =>
          if clipboard_write E blob then
            mkCardState true false (S (copied_resets s1))
                        (blob :: clipboard s1) (downloads s1) (alerts s1)
          else
            mkCardState (copied s1) false (copied_resets s1)
                        (clipboard s1) (downloads s1) (S (alerts s1))
      end
  end.

(** [handleDownload], lines 190-205, from the click to its [finally]. *)
Definition handleDownload (E : Exporter) (photo : Photo) (s : CardState)
  : CardState :=
  let s1 := setIsProcessing true s in
  match generatePolaroidCanvas E photo with
  | inl _ => setIsProcessing false s1
  | inr canvas =>
      mkCardState (copied s1) false (copied_resets s1) (clipboard s1)
                  (("polaroid-" +:+ id photo +:+ ".png",
                    toDataURL_png E canvas) :: downloads s1)
                  (alerts s1)
  end.

Inductive CardEvent :=
| press_copy
| press_download
| copied_timeout   (* a pending [setCopied(false)] timer fires *).

Global Instance CardEvent_eq_dec : EqDecision CardEvent.
Proof. solve_decision. Defined.

(** Both buttons carry [disabled={isProcessing}]. *)
Definition card_step (E : Exporter) (photo : Photo) (s : CardState)
    (e : CardEvent) : option CardState :=
  match e with
  | press_copy =>
      if isProcessing s then None else Some (handleCopy E photo s)
  | press_download =>
      if isProcessing s then None else Some (handleDownload E photo s)
  | copied_timeout =>
      match copied_resets s with
      | O => None
      | S n => Some (mkCardState false (isProcessing s) n (clipboard s)
                                 (downloads s) (alerts s))
      end
  end.

Fixpoint card_run (E : Exporter) (photo : Photo) (s : CardState)
    (es : list CardEvent) : option CardState :=
  match es with
  | [] => Some s
  | e :: es' => s' ← card_step E photo s e; card_run E photo s' es'
  end.

(** An exporter for which everything works, and one whose [toBlob] hands
    over [null]. *)
Definition plain_exporter : Exporter :=
  mkExporter true (λ _, true) (λ _, "Jan 1, 12:00 AM"%string)
             (λ _, "data:image/png;base64,iVBOR"%string)
             (λ _, Some "png-blob"%string) (λ _, true).

Definition blobless_exporter : Exporter :=
  mkExporter true (λ _, true) (λ _, "Jan 1, 12:00 AM"%string)
             (λ _, "data:image/png;base64,iVBOR"%string)
             (λ _, None) (λ _, true).

(** What every run of a card keeps true of its logs and flags. *)
Definition card_inv (E : Exporter) (photo : Photo) (s : CardState) : Prop :=
  Forall (λ d, ∃ c, generatePolaroidCanvas E photo = inr c
                    ∧ d = ("polaroid-" +:+ id photo +:+ ".png",
                           toDataURL_png E c))
         (downloads s)
  ∧ Forall (λ b, ∃ c, generatePolaroidCanvas E photo = inr c
                      ∧ toBlob_png E c = Some b
                      ∧ clipboard_write E b = true)
           (clipboard s)
  ∧ (copied s = true → clipboard s ≠ [])
  ∧ (isProcessing s = true →
     ∃ c, generatePolaroidCanvas E photo = inr c ∧ toBlob_png E c = None).

(** * Properties *)

(** A text that parses but is not an array of photos is handed to
    [setPhotos] as it is. *)
Example load_effect_null : load_effect (Some "null") = Untyped JSON.JNull.
Proof. reflexivity. Qed.

(** The text [JSON.stringify] writes for a store of two photos. *)
Example stringify_two :
  JSON.stringify [mkPhoto "2000" "data:b" 2000; mkPhoto "1000" "data:a" 1000]
  = ("[{" +:+ JSON.quote "id" +:+ ":" +:+ JSON.quote "2000" +:+ ","
         +:+ JSON.quote "dataUrl" +:+ ":" +:+ JSON.quote "data:b" +:+ ","
         +:+ JSON.quote "timestamp" +:+ ":2000},{"
         +:+ JSON.quote "id" +:+ ":" +:+ JSON.quote "1000" +:+ ","
         +:+ JSON.quote "dataUrl" +:+ ":" +:+ JSON.quote "data:a" +:+ ","
         +:+ JSON.quote "timestamp" +:+ ":1000}]")%string.
Proof. reflexivity. Qed.

(** ** The JSON codec reads back what it wrote *)
Module JSON_facts.
Import JSON.

Local Arguments String.append !_ _ / : simpl nomatch.

Lemma append_assoc (a b c : string) : (a +:+ b) +:+ c = a +:+ (b +:+ c).
Proof. induction a as [|x a IH]; simpl; congruence. Qed.

Lemma length_append (a b : string) :
  String.length (a +:+ b) = (String.length a + String.length b)%nat.
Proof. induction a as [|x a IH]; simpl; congruence. Qed.

(** *** Strings *)

Lemma parse_chars_quote_char (c : ascii) (r : string) :
  parse_chars (quote_char c +:+ r)
  = '(u, r1) ← parse_chars r; Some (N_of_ascii c :: u, r1).
Proof.
  destruct c as [[] [] [] [] [] [] [] []]; reflexivity.
Qed.

Lemma parse_chars_quote_chars (s rest : string) :
  parse_chars (quote_chars s +:+ String DQUOTE rest)
  = Some (code_units s, rest).
Proof.
  induction s as [|c s IH]; [done|].
  cbn [quote_chars]. rewrite append_assoc, parse_chars_quote_char, IH.
  reflexivity.
Qed.

Lemma quote_append (s rest : string) :
  quote s +:+ rest = String DQUOTE (quote_chars s +:+ String DQUOTE rest).
Proof. unfold quote. simpl. by rewrite append_assoc. Qed.

Lemma string_of_code_units_of_string (s : string) :
  string_of_code_units (code_units s) = Some s.
Proof.
  unfold string_of_code_units, code_units.
  assert (forallb (λ n, n <? 256)%N (N_of_ascii <$> list_ascii_of_string s)
          = true) as ->.
  { apply forallb_forall. intros n Hn. apply in_map_iff in Hn as (c & <- & _).
    apply N.ltb_lt, N_ascii_bounded. }
  assert (∀ l : list ascii, ascii_of_N <$> (N_of_ascii <$> l) = l) as ->.
  { induction l as [|c l IH]; [done|].
    by rewrite !fmap_cons, ascii_N_embedding, IH. }
  by rewrite string_of_list_ascii_of_string.
Qed.

(** *** Numbers *)

Lemma scan_digits_end (rest : string) :
  number_end rest = true → scan_digits rest = (EmptyString, rest).
Proof.
  destruct rest as [|c r]; [done|]. simpl. intros H.
  destruct (is_digit c); [done|]. reflexivity.
Qed.

Lemma scan_fraction_end (rest : string) :
  number_end rest = true → scan_fraction rest = Some (EmptyString, rest).
Proof.
  destruct rest as [|c r]; [done|]. simpl. intros H.
  destruct (is_digit c); [done|]. destruct (c =? ".")%char; done.
Qed.

Lemma scan_exponent_end (rest : string) :
  number_end rest = true → scan_exponent rest = Some (EmptyString, rest).
Proof.
  destruct rest as [|c r]; [done|]. simpl. intros H.
  destruct (is_digit c); [done|]. destruct (c =? ".")%char; [done|].
  destruct (c =? "e")%char; [done|]. destruct (c =? "E")%char; done.
Qed.

Lemma scan_digits_uint (d : Decimal.uint) (rest : string) :
  number_end rest = true →
  scan_digits (NilEmpty.string_of_uint d +:+ rest)
  = (NilEmpty.string_of_uint d, rest).
Proof.
  intros Hend. induction d; simpl; rewrite ?IHd; try done.
  by apply scan_digits_end.
Qed.

Lemma parse_magnitude_uint (neg : bool) (d : Decimal.uint) (rest : string) :
  valid_int_part (NilEmpty.string_of_uint d) = true →
  number_end rest = true →
  parse_magnitude neg (NilEmpty.string_of_uint d +:+ rest)
  = Some (JNum (if neg then - Z.of_N (N.of_uint d) else Z.of_N (N.of_uint d)),
          rest).
Proof.
  intros Hvalid Hend. unfold parse_magnitude.
  rewrite scan_digits_uint, Hvalid by done.
  rewrite scan_fraction_end by done. simpl.
  rewrite scan_exponent_end by done. simpl.
  by rewrite NilEmpty.usu.
Qed.

(** The decimal digits of a positive number: at least one, the first not
    a zero. *)
Lemma to_uint_leading (p : positive) :
  ∃ c s, NilEmpty.string_of_uint (Pos.to_uint p) = String c s
         ∧ is_digit c = true ∧ (c =? "0")%char = false.
Proof.
  pose proof (DecimalPos.Unsigned.to_uint_nonzero p) as Hnz.
  assert (Decimal.unorm (Pos.to_uint p) = Pos.to_uint p) as Hnorm.
  { rewrite <- (DecimalPos.Unsigned.to_of (Pos.to_uint p)).
    by rewrite DecimalPos.Unsigned.of_to. }
  assert (Decimal.nzhead (Pos.to_uint p) = Pos.to_uint p) as Hhead.
  { rewrite <- Hnorm at 2. symmetry. apply unorm_nzhead.
    intros Hnil. apply unorm_0 in Hnil. congruence. }
  pose proof (nzhead_nonzero (Pos.to_uint p)) as Hlead.
  rewrite Hhead in Hlead.
  pose proof (DecimalPos.Unsigned.to_uint_nonnil p) as Hnn.
  destruct (Pos.to_uint p) as [|d|d|d|d|d|d|d|d|d|d]; simpl;
    [done|by destruct (Hlead d)|eexists _, _; split_and!; reflexivity..].
Qed.

Lemma NilZero_to_uint (p : positive) :
  NilZero.string_of_uint (Pos.to_uint p)
  = NilEmpty.string_of_uint (Pos.to_uint p).
Proof.
  pose proof (DecimalPos.Unsigned.to_uint_nonnil p).
  unfold NilZero.string_of_uint. by destruct (Pos.to_uint p).
Qed.

Lemma Number_toString_leading (z : Z) :
  ∃ c s, Number_toString z = String c s
         ∧ (is_digit c || (c =? "-")%char) = true.
Proof.
  unfold Number_toString. destruct z as [|p|p]; simpl.
  - by eexists _, _.
  - destruct (to_uint_leading p) as (c & s & Hs & Hc & _).
    rewrite NilZero_to_uint, Hs. eexists _, _. split; [done|]. by rewrite Hc.
  - by eexists _, _.
Qed.

Lemma parse_number_toString (z : Z) (rest : string) :
  number_end rest = true →
  parse_number (Number_toString z +:+ rest) = Some (JNum z, rest).
Proof.
  intros Hend. unfold Number_toString. destruct z as [|p|p]; simpl.
  - unfold parse_magnitude. simpl. rewrite scan_digits_end by done. simpl.
    rewrite scan_fraction_end by done. simpl.
    by rewrite scan_exponent_end by done.
  - destruct (to_uint_leading p) as (c & s & Hs & Hc & Hc0).
    rewrite NilZero_to_uint.
    assert ((c =? "-")%char = false) as Hminus.
    { destruct c as [[] [] [] [] [] [] [] []]; try done. }
    pose proof (parse_magnitude_uint false (Pos.to_uint p) rest) as Hmag.
    rewrite Hs in Hmag |- *.
    change (String c s +:+ rest) with (String c (s +:+ rest)) in *.
    unfold parse_number. rewrite Hminus.
    rewrite Hmag; [|by simpl; destruct s; rewrite ?Hc0|done].
    by rewrite DecimalPos.Unsigned.of_to.
  - destruct (to_uint_leading p) as (c & s & Hs & Hc & Hc0).
    rewrite NilZero_to_uint.
    rewrite parse_magnitude_uint;
      [|by rewrite Hs; simpl; destruct s; rewrite ?Hc0|done].
    by rewrite DecimalPos.Unsigned.of_to.
Qed.

(** *** Productions, one step at a time *)

Section steps.
Context (pv : string → option (json * string)).
Context (pe : string → option (list json * string)).
Context (pm : string → option (list (list N * json) * string)).

Lemma value_with_object (r : string) :
  value_with pe pm (String "{" (String DQUOTE r))
  = '(l, r1) ← pm (String DQUOTE r); Some (JObj l, r1).
Proof. reflexivity. Qed.

Lemma value_with_array (r : string) :
  value_with pe pm (String "[" (String "{" r))
  = '(l, r1) ← pe (String "{" r); Some (JArr l, r1).
Proof. reflexivity. Qed.

Lemma value_with_string (r : string) :
  value_with pe pm (String DQUOTE r)
  = '(u, r1) ← parse_chars r; Some (JStr u, r1).
Proof. reflexivity. Qed.

Lemma value_with_number (c : ascii) (r : string) :
  (is_digit c || (c =? "-")%char) = true →
  value_with pe pm (String c r) = parse_number (String c r).
Proof.
  intros H.
  destruct c as [[] [] [] [] [] [] [] []];
    first [reflexivity | by vm_compute in H].
Qed.

Lemma members_with_key (r : string) :
  members_with pv pm (String DQUOTE r)
  = '(k, r1) ← parse_chars r; member_value pv pm k r1.
Proof. reflexivity. Qed.

Lemma member_value_colon (k : list N) (r : string) :
  member_value pv pm k (String ":" r)
  = '(v, r1) ← pv r; member_next pm k v r1.
Proof. reflexivity. Qed.

Lemma member_next_comma (k : list N) (v : json) (r : string) :
  member_next pm k v (String "," r)
  = '(l, r1) ← pm r; Some ((k, v) :: l, r1).
Proof. reflexivity. Qed.

Lemma member_next_brace (k : list N) (v : json) (r : string) :
  member_next pm k v (String "}" r) = Some ([(k, v)], r).
Proof. reflexivity. Qed.

Lemma element_next_comma (v : json) (r : string) :
  element_next pe v (String "," r) = '(l, r1) ← pe r; Some (v :: l, r1).
Proof. reflexivity. Qed.

Lemma element_next_bracket (v : json) (r : string) :
  element_next pe v (String "]" r) = Some ([v], r).
Proof. reflexivity. Qed.

End steps.

Lemma parse_value_S f s :
  parse_value (S f) s = value_with (parse_elements f) (parse_members f) s.
Proof. reflexivity. Qed.

Lemma parse_elements_S f s :
  parse_elements (S f) s
  = elements_with (parse_value f) (parse_elements f) s.
Proof. reflexivity. Qed.

Lemma parse_members_S f s :
  parse_members (S f) s = members_with (parse_value f) (parse_members f) s.
Proof. reflexivity. Qed.

(** *** Photos *)

Lemma stringify_photo_append (p : Photo) (rest : string) :
  stringify_photo p +:+ rest
  = String "{" (String DQUOTE (quote_chars "id" +:+ String DQUOTE
      (String ":" (String DQUOTE (quote_chars (id p) +:+ String DQUOTE
      (String "," (String DQUOTE (quote_chars "dataUrl" +:+ String DQUOTE
      (String ":" (String DQUOTE (quote_chars (dataUrl p) +:+ String DQUOTE
      (String "," (String DQUOTE (quote_chars "timestamp" +:+ String DQUOTE
      (String ":" (Number_toString (timestamp p)
                   +:+ String "}" rest)))))))))))))))).
Proof.
  unfold stringify_photo.
  repeat first [rewrite append_assoc | rewrite quote_append
               | progress change (String ?c ?a +:+ ?b) with (String c (a +:+ b))
               | progress change (EmptyString +:+ ?b) with b ].
  reflexivity.
Qed.

Lemma parse_value_toString (f : nat) (z : Z) (rest : string) :
  number_end rest = true →
  parse_value (S f) (Number_toString z +:+ rest) = Some (JNum z, rest).
Proof.
  intros Hend.
  destruct (Number_toString_leading z) as (c & s & Hs & Hc).
  pose proof (parse_number_toString z rest Hend) as Hnum.
  rewrite Hs in Hnum |- *.
  change (String c s +:+ rest) with (String c (s +:+ rest)) in *.
  by rewrite parse_value_S, value_with_number.
Qed.

Lemma parse_value_photo (f : nat) (p : Photo) (rest : string) :
  parse_value (5 + f) (stringify_photo p +:+ rest)
  = Some (json_of_photo p, rest).
Proof.
  rewrite stringify_photo_append.
  change (5 + f)%nat with (S (S (S (S (S f))))).
  rewrite parse_value_S, value_with_object.
  rewrite parse_members_S, members_with_key, parse_chars_quote_chars.
  cbn [mbind option_bind]. rewrite member_value_colon.
  rewrite parse_value_S, value_with_string, parse_chars_quote_chars.
  cbn [mbind option_bind]. rewrite member_next_comma.
  rewrite parse_members_S, members_with_key, parse_chars_quote_chars.
  cbn [mbind option_bind]. rewrite member_value_colon.
  rewrite parse_value_S, value_with_string, parse_chars_quote_chars.
  cbn [mbind option_bind]. rewrite member_next_comma.
  rewrite parse_members_S, members_with_key, parse_chars_quote_chars.
  cbn [mbind option_bind]. rewrite member_value_colon.
  rewrite parse_value_toString by done.
  cbn [mbind option_bind]. rewrite member_next_brace.
  reflexivity.
Qed.

Lemma photo_of_json_of_photo (p : Photo) :
  photo_of_json (json_of_photo p) = Some p.
Proof.
  unfold json_of_photo, photo_of_json.
  rewrite decide_True by done.
  rewrite !string_of_code_units_of_string. by destruct p.
Qed.

Lemma photos_of_json_of_photos (l : list Photo) :
  photos_of_json (json_of_photos l) = Some l.
Proof.
  unfold photos_of_json, json_of_photos.
  induction l as [|p l IH]; [done|].
  rewrite fmap_cons. cbn [mapM]. rewrite photo_of_json_of_photo, IH. done.
Qed.

(** *** Arrays of photos *)

Lemma parse_elements_photos (l : list Photo) (p : Photo) (f : nat)
    (rest : string) :
  parse_elements (length (p :: l) + 5 + f)
    (stringify_items (p :: l) +:+ String "]" rest)
  = Some (json_of_photo <$> (p :: l), rest).
Proof.
  revert p f. induction l as [|q l IH]; intros p f.
  - change (length [p] + 5 + f)%nat with (S (5 + f)).
    rewrite parse_elements_S. unfold elements_with.
    cbn [stringify_items]. rewrite parse_value_photo.
    cbn [mbind option_bind]. by rewrite element_next_bracket.
  - change (length (p :: q :: l) + 5 + f)%nat
      with (S (length (q :: l) + 5 + f)).
    rewrite parse_elements_S. unfold elements_with.
    change (stringify_items (p :: q :: l))
      with (stringify_photo p +:+ "," +:+ stringify_items (q :: l)).
    rewrite !append_assoc.
    replace (length (q :: l) + 5 + f)%nat
      with (5 + (length (q :: l) + f))%nat at 1 by lia.
    rewrite parse_value_photo.
    cbn [mbind option_bind].
    change ("," +:+ ?x) with (String "," x).
    rewrite element_next_comma, IH. reflexivity.
Qed.

Lemma length_stringify_items (l : list Photo) :
  (length l ≤ String.length (stringify_items l))%nat.
Proof.
  induction l as [|p l IH]; [done|].
  destruct l as [|q l].
  - cbn [stringify_items length]. unfold stringify_photo.
    change ("{" +:+ ?x) with (String "{" x). cbn [String.length]. lia.
  - change (stringify_items (p :: q :: l))
      with (stringify_photo p +:+ "," +:+ stringify_items (q :: l)).
    rewrite !length_append. unfold stringify_photo at 1.
    change ("{" +:+ ?x) with (String "{" x).
    cbn [String.length length] in *. lia.
Qed.

(** [JSON.parse(JSON.stringify(photos))] is [photos]. *)
Lemma parse_stringify (l : list Photo) :
  parse (stringify l) = Some (json_of_photos l).
Proof.
  destruct l as [|p l]; [reflexivity|].
  unfold parse, stringify.
  pose proof (length_stringify_items (p :: l)) as Hlen.
  change ("[" +:+ ?x) with (String "[" x).
  cbn [String.length]. rewrite length_append.
  change (String.length "]") with 1%nat.
  set (n := String.length (stringify_items (p :: l))) in *.
  replace (2 * S (n + 1) + 2)%nat
    with (S (length (p :: l) + 5 + (2 * n - length (p :: l))))%nat by lia.
  rewrite parse_value_S.
  assert (∃ r, stringify_items (p :: l) +:+ "]" = String "{" r) as [r Hr].
  { destruct l; cbn [stringify_items]; unfold stringify_photo;
      change ("{" +:+ ?x) with (String "{" x); by eexists. }
  rewrite Hr, value_with_array, <- Hr.
  change "]"%string with (String "]" EmptyString).
  rewrite parse_elements_photos. reflexivity.
Qed.

End JSON_facts.


(** ** State plumbing *)

Lemma photos_save_effect B w : photos (save_effect B w) = photos w.
Proof. unfold save_effect. by destruct (setItem_accepts B _). Qed.

Lemma photos_add B n1 n2 d w :
  photos (add B n1 n2 d w) = new_photo n1 n2 d :: photos w.
Proof. unfold add. by rewrite photos_save_effect. Qed.

Lemma photos_remove B i w :
  photos (remove B i w) = filter (λ p, id p ≠ i) (photos w).
Proof. unfold remove. by rewrite photos_save_effect. Qed.

Lemma setPhotos_same w : setPhotos (λ _, photos w) w = w.
Proof. by destruct w. Qed.

(** ** Removing photos *)

Lemma filter_absent (i : string) (l : list Photo) :
  Forall (λ p, id p ≠ i) l → filter (λ p, id p ≠ i) l = l.
Proof.
  induction 1 as [|p l Hp _ IH]; [done|].
  by rewrite filter_cons_True, IH.
Qed.

Lemma filter_complement_length (i : string) (l : list Photo) :
  (length (filter (λ p, id p ≠ i) l) + length (filter (λ p, id p = i) l)
   = length l)%nat.
Proof.
  induction l as [|p l IH]; [done|].
  rewrite !filter_cons. destruct (decide (id p = i)), (decide (id p ≠ i));
    simpl; first [lia | exfalso; tauto].
Qed.

(** C8. [remove(id)] drops every entry with that id and keeps the others
    in their order; on an id that is not in the store it leaves the
    sequence as it is; applied twice it does what it does once. *)
Theorem remove_spec (B : Browser) (w : World) (i : string) :
  let w' := remove B i w in
  Forall (λ p, id p ≠ i) (photos w')
  ∧ photos w' `sublist_of` photos w
  ∧ (∀ p, p ∈ photos w → id p ≠ i → p ∈ photos w')
  ∧ (length (photos w') + length (filter (λ p, id p = i) (photos w))
     = length (photos w))%nat
  ∧ (Forall (λ p, id p ≠ i) (photos w) →
     photos w' = photos w ∧ handleDelete i w = w)
  ∧ remove B i w' = w'.
Proof.
  intros w'. subst w'. rewrite photos_remove.
  split_and!.
  - apply Forall_forall. intros p Hp.
    by apply list_elem_of_filter in Hp as [? _].
  - apply sublist_filter.
  - intros p Hp Hne. by apply list_elem_of_filter.
  - apply filter_complement_length.
  - intros Habs. split; [by apply filter_absent|].
    unfold handleDelete. rewrite <- (setPhotos_same w) at 2.
    unfold setPhotos. by rewrite filter_absent.
  - unfold remove at 1. unfold handleDelete, setPhotos. simpl.
    rewrite photos_remove.
    rewrite list_filter_filter_l by done.
    unfold remove, handleDelete, setPhotos. simpl.
    unfold save_effect; simpl.
    destruct (setItem_accepts B _) eqn:Hok; simpl; by rewrite ?Hok.
Qed.

Lemma remove_spec_witness :
  let w := apply_ops plain_browser (initial None)
             [op_add 1000 1000 "data:a"; op_add 2000 2000 "data:b"] in
  photos (remove plain_browser "3000" w) = photos w
  ∧ photos (remove plain_browser "1000" w) = [new_photo 2000 2000 "data:b"].
Proof.
  intros w.
  destruct (remove_spec plain_browser w "3000") as (_ & _ & _ & _ & Habs & _).
  split; [apply Habs|reflexivity].
  repeat constructor; by vm_compute.
Defined.

(** ** Photo cards and their controls *)










(** ** Frame normalizer *)

(** C6. With positive native dimensions and a drawing context, the
    payload is the encoding of a 600 x 600 canvas whose first drawing call
    copies the square of side [min width height] at offsets
    [(width - minDim) / 2] and [(height - minDim) / 2] onto the whole
    canvas: a square that lies inside the frame with equal margins on both
    sides. *)
Theorem processImage_center_square (B : Browser) (t : Z) (video : Video) :
  0 < videoWidth video → 0 < videoHeight video →
  getContext_2d B t = true →
  let minDim := Z.min (videoWidth video) (videoHeight video) in
  ∃ (canvas : Canvas) (startX startY : Q) (rest : list CanvasOp),
    processImage B t video = toDataURL B canvas
    ∧ canvas_width canvas = 600 ∧ canvas_height canvas = 600
    ∧ canvas_ops canvas
      = drawImage startX startY (inject_Z minDim) (inject_Z minDim)
                  0 0 600 600 :: rest
    ∧ (startX == inject_Z (videoWidth video - minDim) / 2)%Q
    ∧ (startY == inject_Z (videoHeight video - minDim) / 2)%Q
    ∧ (0 <= startX ∧ 0 <= startY)%Q
    ∧ (startX + inject_Z minDim + startX == inject_Z (videoWidth video))%Q
    ∧ (startY + inject_Z minDim + startY == inject_Z (videoHeight video))%Q
    ∧ (startX == 0 ∨ startY == 0)%Q.
Proof.
  intros Hw Hh Hctx minDim.
  eexists (processImage_canvas video), _, _, _.
  split; [unfold processImage; by rewrite Hctx|].
  split; [done|]. split; [done|]. split; [reflexivity|].
  split; [reflexivity|]. split; [reflexivity|].
  fold minDim.
  assert (Hhalf : ∀ a b : Z, (inject_Z (a - b) / 2 + inject_Z b
            + inject_Z (a - b) / 2 == inject_Z a)%Q).
  { intros a b. unfold inject_Z, Qeq, Qdiv, Qmult, Qplus, Qinv; simpl. lia. }
  assert (Hpos : ∀ a : Z, 0 ≤ a → (0 <= inject_Z a / 2)%Q).
  { intros a Ha. unfold inject_Z, Qle, Qdiv, Qmult, Qinv; simpl. lia. }
  split; [split; apply Hpos; lia|].
  split; [apply Hhalf|]. split; [apply Hhalf|].
  destruct (Z.min_spec (videoWidth video) (videoHeight video))
    as [[_ Hmin]|[_ Hmin]]; [left|right];
    unfold minDim; rewrite Hmin, Z.sub_diag; reflexivity.
Qed.

Lemma processImage_center_square_witness :
  ∃ canvas,
    processImage plain_browser 0 (mkVideo 1920 1080)
    = toDataURL plain_browser canvas
    ∧ processImage plain_browser 0 (mkVideo 1080 1920)
      = toDataURL plain_browser
          (mkCanvas 600 600
             (canvas_ops (processImage_canvas (mkVideo 1080 1920))))
    ∧ canvas_width canvas = 600 ∧ canvas_height canvas = 600
    ∧ head (canvas_ops canvas)
      = Some (drawImage (840 # 2) (0 # 2) 1080 1080 0 0 600 600).
Proof.
  destruct (processImage_center_square plain_browser 0 (mkVideo 1920 1080))
    as (canvas & sx & sy & rest & Hpay & Hw & Hh & Hops & _); [done..|].
  exists (processImage_canvas (mkVideo 1920 1080)).
  split; [reflexivity|]. split; [reflexivity|]. by vm_compute.
Defined.

(** ** Loading and persisting *)

Lemma load_stringify (l : list Photo) : load (Some (JSON.stringify l)) = Some l.
Proof.
  unfold load, load_effect.
  rewrite JSON_facts.parse_stringify, JSON_facts.photos_of_json_of_photos.
  reflexivity.
Qed.


Lemma storage_save_effect (B : Browser) (w : World) :
  setItem_accepts B (JSON.stringify (take MAX_STORED_PHOTOS (photos w)))
  = true →
  storage (save_effect B w)
  = Some (JSON.stringify (take MAX_STORED_PHOTOS (photos w))).
Proof. intros Hok. unfold save_effect. by rewrite Hok. Qed.

Lemma load_save_effect (B : Browser) (w : World) :
  setItem_accepts B (JSON.stringify (take MAX_STORED_PHOTOS (photos w)))
  = true →
  load (storage (save_effect B w)) = Some (take MAX_STORED_PHOTOS (photos w)).
Proof. intros Hok. by rewrite storage_save_effect, load_stringify. Qed.

Lemma load_empty_text : load (Some EmptyString) = Some [].
Proof. reflexivity. Qed.


Lemma code_units_of_string (u : list N) (s : string) :
  JSON.string_of_code_units u = Some s → JSON.code_units s = u.
Proof.
  unfold JSON.string_of_code_units, JSON.code_units.
  destruct (forallb _ u) eqn:Hall; [|done]. intros [= <-].
  rewrite list_ascii_of_string_of_list_ascii.
  induction u as [|n u IH]; [done|].
  simpl in Hall. apply andb_prop in Hall as [Hn Hu].
  rewrite !fmap_cons, IH by done. f_equal.
  apply N_ascii_embedding. by apply N.ltb_lt.
Qed.

Lemma json_of_photo_of_json (v : JSON.json) (p : Photo) :
  JSON.photo_of_json v = Some p → JSON.json_of_photo p = v.
Proof.
  destruct v as [| | | | |?|members]; try done.
  destruct members as [|[k1 [| | | |i| |]] [|[k2 [| | | |d| |]]
    [|[k3 [| |t| | | |]] [|? ?]]]]; try done.
  simpl. destruct (decide _) as [(-> & -> & ->)|]; [|done].
  destruct (JSON.string_of_code_units i) as [i'|] eqn:Hi; [|done].
  destruct (JSON.string_of_code_units d) as [d'|] eqn:Hd; [|done].
  intros [= <-]. unfold JSON.json_of_photo. simpl.
  by rewrite (code_units_of_string _ _ Hi), (code_units_of_string _ _ Hd).
Qed.

Lemma json_of_photos_of_json (v : JSON.json) (l : list Photo) :
  JSON.photos_of_json v = Some l → JSON.json_of_photos l = v.
Proof.
  destruct v as [| | | | |items|]; try done. simpl.
  intros Hl. unfold JSON.json_of_photos. f_equal.
  revert l Hl. induction items as [|x items IH]; intros l.
  - by intros [= <-].
  - simpl. destruct (JSON.photo_of_json x) as [p|] eqn:Hp; [|done].
    simpl. destruct (mapM JSON.photo_of_json items) as [ps|]; [|done].
    intros [= <-]. rewrite fmap_cons.
    by rewrite (json_of_photo_of_json _ _ Hp), (IH ps).
Qed.

(** Whatever [JSON.parse] returns goes to [setPhotos] as it is. *)
Lemma setPhotos_argument_parsed (text : string) (v : JSON.json) :
  text ≠ EmptyString → JSON.parse text = Some v →
  setPhotos_argument (load_effect (Some text)) = Some v.
Proof.
  intros Hne Hv. unfold load_effect. destruct text; [done|]. rewrite Hv.
  destruct (JSON.photos_of_json v) as [l|] eqn:Hl; [|done].
  simpl. by rewrite (json_of_photos_of_json _ _ Hl).
Qed.




(** ** Adding photos *)

Lemma apply_ops_snoc (B : Browser) (w : World) (ops : list StoreOp)
    (op : StoreOp) :
  apply_ops B w (ops ++ [op]) = apply_op B (apply_ops B w ops) op.
Proof. apply foldl_snoc. Qed.

Lemma adds_snoc (cs : list Capture) (c : Capture) :
  adds (cs ++ [c]) = adds cs ++ [op_add c.1.1 c.1.2 c.2].
Proof. unfold adds. by rewrite fmap_app. Qed.

Lemma photos_apply_adds (B : Browser) (w0 : World) (cs : list Capture) :
  photos (apply_ops B w0 (adds cs))
  = reverse (photo_of_capture <$> cs) ++ photos w0.
Proof.
  induction cs as [|c cs IH] using rev_ind; [done|].
  rewrite adds_snoc, apply_ops_snoc, fmap_app.
  change (photo_of_capture <$> [c]) with [photo_of_capture c].
  rewrite reverse_snoc. simpl. by rewrite photos_add, IH.
Qed.

(** C1, as stated, fails: after 51 adds the store holds 51 photos. *)
Lemma store_exceeds_retention_limit :
  ¬ (length (photos (apply_ops plain_browser (initial None) (adds (burst 51))))
     ≤ 50)%nat.
Proof. rewrite photos_apply_adds. vm_compute. lia. Qed.

(** C1, amended. Every add puts the new photo in front of all the
    photos held before, none is dropped from the in-memory sequence; the
    copy the save effect writes is that sequence cut to its first 50
    entries, so what [load] reads back after an accepted write is at most
    50 photos, the most recent ones. *)
Theorem add_keeps_all_persists_newest (B : Browser) (w0 : World)
    (cs : list Capture) (c : Capture) :
  let w := apply_ops B w0 (adds (cs ++ [c])) in
  photos w = reverse (photo_of_capture <$> (cs ++ [c])) ++ photos w0
  ∧ length (photos w) = (length cs + 1 + length (photos w0))%nat
  ∧ (setItem_accepts B (JSON.stringify (take MAX_STORED_PHOTOS (photos w)))
     = true →
     load (storage w) = Some (take MAX_STORED_PHOTOS (photos w))
     ∧ (length (take MAX_STORED_PHOTOS (photos w)) ≤ 50)%nat).
Proof.
  intros w. subst w. split_and!.
  - apply photos_apply_adds.
  - rewrite photos_apply_adds, length_app, length_reverse, length_fmap,
      length_app. simpl. lia.
  - rewrite adds_snoc, apply_ops_snoc. simpl.
    set (w1 := apply_ops B w0 _). unfold add. rewrite photos_save_effect.
    intros Hok. split; [by apply load_save_effect|].
    rewrite length_take. unfold MAX_STORED_PHOTOS. lia.
Qed.

Lemma add_keeps_all_persists_newest_witness :
  let w := apply_ops plain_browser (initial None) (adds (burst 51)) in
  length (photos w) = 51%nat
  ∧ load (storage w)
    = Some (reverse (photo_of_capture <$> drop 1 (burst 51))).
Proof.
  intros w.
  destruct (add_keeps_all_persists_newest plain_browser (initial None)
              (burst 50) (51, 51, "data:,"%string)) as (_ & Hlen & Hload).
  split; [exact Hlen|].
  destruct (Hload eq_refl) as [Hread _].
  etrans; [exact Hread|]. by vm_compute.
Defined.

(** C9, as stated, fails: once the store holds more than 50 photos,
    [load] after persisting does not give the store back. *)
Lemma load_after_persist_loses_the_oldest :
  let w := apply_ops plain_browser (initial None) (adds (burst 51)) in
  load (storage (save_effect plain_browser w)) ≠ Some (photos w).
Proof.
  intros w Heq. rewrite load_save_effect in Heq by done.
  apply (f_equal (fmap length)) in Heq. by vm_compute in Heq.
Qed.

(** C9, amended. After any sequence of adds and removes, persisting the
    store (the write being accepted) and loading gives back the first 50
    photos of the store, in order and with their fields; it gives back the
    whole store when that holds at most 50 photos. *)
Theorem load_after_persist (B : Browser) (w0 : World) (ops : list StoreOp) :
  let w := apply_ops B w0 ops in
  setItem_accepts B (JSON.stringify (take MAX_STORED_PHOTOS (photos w)))
  = true →
  load (storage (save_effect B w)) = Some (take MAX_STORED_PHOTOS (photos w))
  ∧ ((length (photos w) ≤ MAX_STORED_PHOTOS)%nat →
     load (storage (save_effect B w)) = Some (photos w)).
Proof.
  intros w Hok. rewrite load_save_effect by done.
  split; [done|]. intros Hlen. by rewrite take_ge.
Qed.

Lemma load_after_persist_witness :
  let w := apply_ops plain_browser (initial None)
             [op_add 1000 1000 "data:a"; op_add 2000 2000 "data:b";
              op_remove "1000"] in
  photos w = [new_photo 2000 2000 "data:b"]
  ∧ load (storage (save_effect plain_browser w))
    = Some [new_photo 2000 2000 "data:b"].
Proof.
  intros w. split; [reflexivity|].
  destruct (load_after_persist plain_browser (initial None)
              [op_add 1000 1000 "data:a"; op_add 2000 2000 "data:b";
               op_remove "1000"] eq_refl) as [_ Hall].
  apply Hall. vm_compute. lia.
Defined.

(** ** Photo ids *)

Lemma Number_toString_inj (n m : Z) :
  JSON.Number_toString n = JSON.Number_toString m → n = m.
Proof.
  unfold JSON.Number_toString. intros Heq.
  apply DecimalZ.to_int_inj.
  assert (Hok : ∀ z, NilZero.int_of_string (NilZero.string_of_int (Z.to_int z))
                     = Some (Z.to_int z)).
  { intros z. apply NilZero.isi; destruct z as [|p|p]; simpl; try done;
      intros [= Hnil]; by apply (DecimalPos.Unsigned.to_uint_nonnil p). }
  pose proof (Hok n) as Hn. rewrite Heq, Hok in Hn. congruence.
Qed.

Lemma id_readings_snoc (ops : list StoreOp) (op : StoreOp) :
  id_readings (ops ++ [op]) = id_readings ops ++ id_readings [op].
Proof. apply omap_app. Qed.

(** Every id in the store was derived from one of the readings. *)
Lemma ids_come_from_readings (B : Browser) (stored : option string)
    (ops : list StoreOp) (p : Photo) :
  p ∈ photos (apply_ops B (initial stored) ops) →
  ∃ n, n ∈ id_readings ops ∧ id p = JSON.Number_toString n.
Proof.
  revert p. induction ops as [|op ops IH] using rev_ind; intros p Hp.
  { by apply elem_of_nil in Hp. }
  rewrite apply_ops_snoc in Hp. rewrite id_readings_snoc.
  destruct op as [n1 n2 d|i]; simpl in Hp.
  - rewrite photos_add in Hp. apply elem_of_cons in Hp as [->|Hp].
    + exists n1. split; [|done]. apply elem_of_app. right. simpl. set_solver.
    + destruct (IH p Hp) as (n & Hn & Hid). exists n. split; [|done].
      apply elem_of_app. by left.
  - rewrite photos_remove in Hp. apply list_elem_of_filter in Hp as [_ Hp].
    destruct (IH p Hp) as (n & Hn & Hid). exists n. split; [|done].
    apply elem_of_app. by left.
Qed.

Lemma ids_NoDup (B : Browser) (stored : option string) (ops : list StoreOp) :
  NoDup (id_readings ops) →
  NoDup (id <$> photos (apply_ops B (initial stored) ops)).
Proof.
  induction ops as [|op ops IH] using rev_ind; intros Hnd.
  { simpl. constructor. }
  rewrite id_readings_snoc in Hnd. apply NoDup_app in Hnd as (Hnd & Hfresh & _).
  rewrite apply_ops_snoc. destruct op as [n1 n2 d|i]; simpl.
  - rewrite photos_add, fmap_cons. apply NoDup_cons. split; [|by apply IH].
    intros Hin. apply list_elem_of_fmap in Hin as (p & Hid & Hp).
    destruct (ids_come_from_readings B stored ops p Hp) as (n & Hn & Hidn).
    simpl in Hid. rewrite Hidn in Hid. apply Number_toString_inj in Hid.
    subst n. apply (Hfresh n1 Hn). simpl. set_solver.
  - rewrite photos_remove. eapply sublist_NoDup; [by apply IH|].
    apply fmap_sublist, sublist_filter.
Qed.

(** C2, as stated, fails: two captures that read the same millisecond
    create two different photos with one id, and the store then holds that
    id twice. *)
Lemma same_millisecond_same_id :
  let a := new_photo 1000 1000 "data:a" in
  let b := new_photo 1000 1000 "data:b" in
  let w := apply_ops plain_browser (initial None)
             [op_add 1000 1000 "data:a"; op_add 1000 1000 "data:b"] in
  a ≠ b ∧ id a = id b ∧ photos w = [b; a] ∧ ¬ NoDup (id <$> photos w).
Proof.
  intros a b w. split_and!; try done.
  intros Hnd. apply NoDup_cons_1_1 in Hnd. apply Hnd. vm_compute. set_solver.
Qed.

(** C2, amended. The id of a photo is the decimal text of the clock
    reading taken for it, so two captures get different ids exactly when
    those readings differ; a store built from the empty store by adds
    whose readings are pairwise different, and any removes, holds no id
    twice. *)
Theorem ids_distinct_iff_readings_distinct (B : Browser)
    (stored : option string) :
  (∀ n1 n2 d n1' n2' d',
     id (new_photo n1 n2 d) = id (new_photo n1' n2' d') ↔ n1 = n1')
  ∧ (∀ ops, NoDup (id_readings ops) →
            NoDup (id <$> photos (apply_ops B (initial stored) ops))).
Proof.
  split.
  - intros n1 n2 d n1' n2' d'. simpl. split; [apply Number_toString_inj|].
    by intros ->.
  - intros ops. apply ids_NoDup.
Qed.

Lemma ids_distinct_iff_readings_distinct_witness :
  NoDup (id <$> photos (apply_ops plain_browser (initial None)
                          [op_add 1000 1000 "data:a"; op_remove "7";
                           op_add 1001 1001 "data:b"])).
Proof.
  destruct (ids_distinct_iff_readings_distinct plain_browser None)
    as [_ Hnd].
  apply Hnd. by apply (bool_decide_unpack _).
Defined.

(** ** Develop tracker *)

(** The develop timer clears the tracker whatever id it tracks. *)
Lemma develop_done_clears_any_id (B : Browser) (w : World) :
  recentPhotoId (run_callback B cb_develop_done w) = None.
Proof. reflexivity. Qed.

(** C3: the code at the failing input.  Two shots in a row, the second
    pressed as soon as the camera is ready again: the second photo is
    captured at 1200 ms and tracked as Developing; at 2000 ms the timer of
    the first photo fires and clears the tracker, 800 ms into the second
    photo's window of 1800 ms. *)
Theorem stale_develop_timer_ends_newer_window :
  ∃ w1 w2,
    run plain_browser (initial None) (shot ++ [click_shutter; timeout; timeout])
    = Some w1
    ∧ (id <$> photos w1) = ["1200"; "200"]%string
    ∧ clock w1 = 1200 ∧ recentPhotoId w1 = Some "1200"%string
    ∧ step plain_browser w1 timeout = Some w2
    ∧ photos w2 = photos w1
    ∧ clock w2 = 2000 ∧ recentPhotoId w2 = None
    ∧ clock w2 < clock w1 + DEVELOP_TIME_MS.
Proof.
  eexists _, _.
  split; [vm_compute; reflexivity|].
  do 3 (split; [by vm_compute|]).
  split; [vm_compute; reflexivity|].
  split_and!; by vm_compute.
Qed.

(** ** Captures that fail *)

(** The capture callback stores a photo for whatever [processImage]
    returned. *)
Lemma shoot_stores_any_payload (B : Browser) (w : World) (video : Video) :
  videoRef_current B (clock w) = Some video →
  photos (run_callback B cb_shoot w)
  = new_photo (Date_now B (clock w)) (Date_now B (clock w))
              (processImage B (clock w) video) :: photos w.
Proof. intros Hv. simpl. rewrite Hv. simpl. by rewrite photos_add. Qed.

(** C4: the code at the failing input.  Without a drawing context
    [processImage] returns the empty string, and the capture callback
    stores a photo with that payload; with a 0x0 video it returns the
    encoding of the canvas and a photo is stored as well. *)
Theorem failed_capture_still_stored :
  processImage contextless_browser 200 (mkVideo 1920 1080) = ""%string
  ∧ (photos <$> run contextless_browser (initial None)
                  [click_shutter; timeout; timeout])
    = Some [mkPhoto "200" "" 200]
  ∧ (photos <$> run streamless_browser (initial None)
                  [click_shutter; timeout; timeout])
    = Some [mkPhoto "200" "data:image/jpeg;base64,/9j/4AAQ" 200].
Proof. split_and!; by vm_compute. Qed.

(** * Further properties of the store *)

Lemma photos_apply_op_indep (B B' : Browser) (w w' : World) (op : StoreOp) :
  photos w = photos w' →
  photos (apply_op B w op) = photos (apply_op B' w' op).
Proof.
  intros Heq. destruct op; simpl.
  - by rewrite !photos_add, Heq.
  - by rewrite !photos_remove, Heq.
Qed.

Lemma recentPhotoId_save_effect B w :
  recentPhotoId (save_effect B w) = recentPhotoId w.
Proof. unfold save_effect. by destruct (setItem_accepts B _). Qed.

(** X1. What the store holds in memory after a sequence of adds and
    removes does not depend on whether the storage accepted or rejected
    any of the writes, nor on what it held before. *)
Theorem photos_independent_of_storage (B B' : Browser) (w w' : World)
    (ops : list StoreOp) :
  photos w = photos w' →
  photos (apply_ops B w ops) = photos (apply_ops B' w' ops).
Proof.
  revert w w'. induction ops as [|op ops IH]; intros w w' Heq; [done|].
  simpl. apply IH. by apply photos_apply_op_indep.
Qed.

Lemma photos_independent_of_storage_witness :
  photos (apply_ops full_storage_browser (initial (Some "{oops"))
            [op_add 1 1 "data:a"; op_remove "7"])
  = photos (apply_ops plain_browser (initial None)
              [op_add 1 1 "data:a"; op_remove "7"]).
Proof. by apply photos_independent_of_storage. Defined.

Lemma storage_apply_op (B : Browser) (w : World) (op : StoreOp) :
  storage (apply_op B w op) = storage w
  ∨ storage (apply_op B w op)
    = Some (JSON.stringify (take MAX_STORED_PHOTOS (photos (apply_op B w op)))).
Proof.
  assert (Hsave : ∀ v, storage (save_effect B v) = storage v
            ∨ storage (save_effect B v)
              = Some (JSON.stringify (take MAX_STORED_PHOTOS (photos v)))).
  { intros v. unfold save_effect. destruct (setItem_accepts B _); auto. }
  destruct op as [n1 n2 d|i]; simpl.
  - unfold add. rewrite photos_save_effect.
    destruct (Hsave (handleCapture n1 n2 d w)) as [-> | ->]; auto.
  - unfold remove. rewrite photos_save_effect.
    destruct (Hsave (handleDelete i w)) as [-> | ->]; auto.
Qed.

(** X2. The persisted text always is a snapshot: after any sequence of
    adds and removes local storage holds either what it held at the start
    or the serialization of the first 50 photos the store held after some
    prefix of the sequence, and [load] reads exactly those photos back. *)
Theorem storage_is_a_past_snapshot (B : Browser) (w0 : World)
    (ops : list StoreOp) :
  let w := apply_ops B w0 ops in
  storage w = storage w0
  ∨ ∃ pre, pre `prefix_of` ops
      ∧ storage w
        = Some (JSON.stringify
                  (take MAX_STORED_PHOTOS (photos (apply_ops B w0 pre))))
      ∧ load (storage w)
        = Some (take MAX_STORED_PHOTOS (photos (apply_ops B w0 pre))).
Proof.
  induction ops as [|op ops IH] using rev_ind; simpl; [by left|].
  rewrite apply_ops_snoc.
  destruct (storage_apply_op B (apply_ops B w0 ops) op) as [-> | Hnew].
  - destruct IH as [IH | (pre & Hpre & Hst & Hload)]; [by left|].
    right. exists pre. split; [by apply prefix_app_r|]. by rewrite Hst in *.
  - right. exists (ops ++ [op]). split; [done|].
    rewrite apply_ops_snoc, Hnew. split; [done|]. apply load_stringify.
Qed.

Lemma storage_is_a_past_snapshot_witness :
  let w := apply_ops full_storage_browser (initial None)
             [op_remove "7"; op_add 1 1 "data:a"] in
  photos w = [new_photo 1 1 "data:a"] ∧ load (storage w) = Some [].
Proof.
  intros w. split; [reflexivity|].
  destruct (storage_is_a_past_snapshot full_storage_browser (initial None)
              [op_remove "7"; op_add 1 1 "data:a"])
    as [Hsame | (pre & _ & _ & _)]; by vm_compute.
Defined.

(** X3. Deleting by id undoes an add whose id no stored photo has; when
    stored photos share the new id, the delete takes them out as well. *)
Theorem remove_after_add (B : Browser) (w : World) (n1 n2 : Z) (d : string) :
  let i := JSON.Number_toString n1 in
  photos (remove B i (add B n1 n2 d w)) = filter (λ p, id p ≠ i) (photos w)
  ∧ (Forall (λ p, id p ≠ i) (photos w) →
     photos (remove B i (add B n1 n2 d w)) = photos w).
Proof.
  intros i. rewrite photos_remove, photos_add.
  rewrite filter_cons_False by (simpl; tauto).
  split; [done|]. apply filter_absent.
Qed.

Lemma remove_after_add_witness :
  let w := add plain_browser 1000 1000 "data:a" (initial None) in
  photos (remove plain_browser "2000" (add plain_browser 2000 2000 "data:b" w))
  = photos w
  ∧ photos (remove plain_browser "1000" (add plain_browser 1000 1001 "data:b" w))
    = [].
Proof.
  intros w. split.
  - apply (remove_after_add plain_browser w 2000 2000 "data:b").
    repeat constructor. by vm_compute.
  - reflexivity.
Defined.

(** X4. Two deletes leave the same photos in whichever order they are
    made. *)
Theorem remove_commutes (B : Browser) (w : World) (i j : string) :
  photos (remove B i (remove B j w)) = photos (remove B j (remove B i w)).
Proof.
  rewrite !photos_remove, !list_filter_filter.
  apply list_filter_iff. tauto.
Qed.

Lemma mount_stringify (B : Browser) (l : list Photo) :
  mount B (Some (JSON.stringify l))
  = Some (save_effect B
            (setPhotos (λ _, l)
               (save_effect B (initial (Some (JSON.stringify l)))))).
Proof.
  unfold mount, load_effect.
  rewrite JSON_facts.parse_stringify, JSON_facts.photos_of_json_of_photos.
  reflexivity.
Qed.

Lemma storage_first_save (B : Browser) (stored : option string) :
  setItem_accepts B (JSON.stringify []) = true →
  storage (save_effect B (initial stored)) = Some (JSON.stringify []).
Proof. intros Hok. by rewrite storage_save_effect. Qed.

(** X5. A restart keeps what was persisted: when the storage accepts
    every write, mounting the application on what the save effect wrote
    puts the first 50 photos of the old store into [photos] and leaves the
    same text in storage. *)
Theorem mount_after_persist (B : Browser) (w : World) :
  (∀ text, setItem_accepts B text = true) →
  ∃ w', mount B (storage (save_effect B w)) = Some w'
        ∧ photos w' = take MAX_STORED_PHOTOS (photos w)
        ∧ storage w' = storage (save_effect B w)
        ∧ recentPhotoId w' = None.
Proof.
  intros Hok. rewrite storage_save_effect by apply Hok.
  rewrite mount_stringify. eexists. split; [reflexivity|].
  rewrite photos_save_effect. split; [done|].
  rewrite storage_save_effect by apply Hok.
  split.
  - simpl. by rewrite take_take, Nat.min_id.
  - rewrite recentPhotoId_save_effect. cbn [recentPhotoId setPhotos].
    by rewrite recentPhotoId_save_effect.
Qed.

Lemma mount_after_persist_witness :
  let w := apply_ops plain_browser (initial None) (adds (burst 3)) in
  photos <$> mount plain_browser (storage (save_effect plain_browser w))
  = Some (photos w).
Proof.
  intros w.
  destruct (mount_after_persist plain_browser w) as (w' & -> & Hph & _);
    [done|].
  simpl. rewrite Hph. by vm_compute.
Defined.

(** X6. Mounting writes the empty array before it writes the photos it
    loaded: when the storage takes the first write and rejects the second,
    the photos are shown, but storage is left holding the empty array. *)
Theorem mount_clobbers_storage (B : Browser) (l : list Photo) :
  setItem_accepts B (JSON.stringify []) = true →
  setItem_accepts B (JSON.stringify (take MAX_STORED_PHOTOS l)) = false →
  ∃ w, mount B (Some (JSON.stringify l)) = Some w
       ∧ photos w = l
       ∧ storage w = Some (JSON.stringify [])
       ∧ load (storage w) = Some [].
Proof.
  intros Hfirst Hsecond. rewrite mount_stringify.
  eexists. split; [reflexivity|].
  rewrite photos_save_effect. split; [done|].
  assert (storage (save_effect B
            (setPhotos (λ _, l)
               (save_effect B (initial (Some (JSON.stringify l))))))
          = Some (JSON.stringify [])) as ->.
  { unfold save_effect at 1. cbn [photos setPhotos]. rewrite Hsecond.
    cbn [storage setPhotos]. by apply storage_first_save. }
  split; [done|]. apply load_stringify.
Qed.

Lemma mount_clobbers_storage_witness :
  ∃ w, mount full_storage_browser
         (Some (JSON.stringify [new_photo 1 1 "data:a"])) = Some w
       ∧ photos w = [new_photo 1 1 "data:a"]
       ∧ load (storage w) = Some [].
Proof.
  destruct (mount_clobbers_storage full_storage_browser
              [new_photo 1 1 "data:a"]) as (w & Hm & Hp & _ & Hl);
    [reflexivity..|].
  by exists w.
Defined.

(** * Further properties of the camera and its timers *)

Lemma next_timer_None (l : list Timer) : next_timer l = None → l = [].
Proof.
  destruct l as [|x l]; [done|]. simpl.
  destruct (next_timer l) as [[tm' rest']|]; [|done].
  by destruct (due x <=? due tm').
Qed.

Lemma next_timer_perm (l : list Timer) (tm : Timer) (rest : list Timer) :
  next_timer l = Some (tm, rest) → l ≡ₚ tm :: rest.
Proof.
  revert tm rest. induction l as [|x l IH]; intros tm rest; [done|].
  simpl. destruct (next_timer l) as [[tm' rest']|] eqn:Hl.
  - destruct (due x <=? due tm'); intros [= <- <-]; [done|].
    rewrite (IH tm' rest' eq_refl). apply Permutation_swap.
  - intros [= <- <-]. by rewrite (next_timer_None l Hl).
Qed.


Lemma pending_perm (cb : Callback) (l k : list Timer) :
  l ≡ₚ k → pending cb l ≡ₚ pending cb k.
Proof. intros H. unfold pending. by rewrite H. Qed.

Lemma pending_fired (cb : Callback) (l rest : list Timer) (tm : Timer) :
  l ≡ₚ tm :: rest →
  length (pending cb l)
  = ((if decide (callback tm = cb) then 1 else 0)
     + length (pending cb rest))%nat.
Proof.
  intros H. rewrite (Permutation_length (pending_perm cb _ _ H)).
  unfold pending. rewrite filter_cons. by case_decide.
Qed.

Lemma save_effect_camera (B : Browser) (w : World) :
  timers (save_effect B w) = timers w ∧ clock (save_effect B w) = clock w
  ∧ printing (save_effect B w) = printing w
  ∧ recentPhotoId (save_effect B w) = recentPhotoId w.
Proof. unfold save_effect. by destruct (setItem_accepts B _). Qed.

(** What a press of the shutter changes. *)
Lemma takePhoto_spec (B : Browser) (w : World) :
  printing w = false →
  takePhoto B w = w
  ∨ ∃ fl, timers (takePhoto B w)
          = timers w ++ fl ++ [mkTimer (clock w + 200) cb_shoot]
      ∧ Forall (λ tm, callback tm = cb_flash_off ∧ due tm = clock w + 100) fl
      ∧ printing (takePhoto B w) = true
      ∧ photos (takePhoto B w) = photos w
      ∧ recentPhotoId (takePhoto B w) = recentPhotoId w
      ∧ clock (takePhoto B w) = clock w.
Proof.
  intros Hp. unfold takePhoto. destruct (videoRef_current B _); [|by left].
  rewrite Hp. right. destruct (flash w); simpl.
  - exists [mkTimer (clock w + 100) cb_flash_off].
    rewrite <- app_assoc. split_and!; try done. by repeat constructor.
  - exists []. split_and!; try done.
Qed.

(** What the capture callback changes when the video element is there. *)
Lemma shoot_spec (B : Browser) (w : World) (video : Video) :
  videoRef_current B (clock w) = Some video →
  let p := new_photo (Date_now B (clock w)) (Date_now B (clock w))
                     (processImage B (clock w) video) in
  let w' := run_callback B cb_shoot w in
  photos w' = p :: photos w
  ∧ recentPhotoId w' = Some (id p)
  ∧ timers w' = timers w ++ [mkTimer (clock w + DEVELOP_TIME_MS) cb_develop_done;
                             mkTimer (clock w + 800) cb_printing_off]
  ∧ printing w' = printing w ∧ clock w' = clock w.
Proof.
  intros Hv p w'. subst p w'. simpl. rewrite Hv. unfold add, save_effect.
  destruct (setItem_accepts B _); simpl; rewrite <- app_assoc; done.
Qed.

Lemma shoot_without_video (B : Browser) (w : World) :
  videoRef_current B (clock w) = None → run_callback B cb_shoot w = w.
Proof. intros Hv. simpl. by rewrite Hv. Qed.

(** One step adds at most one photo or pending capture, and only a
    press of the shutter adds a pending capture. *)
Lemma step_counts (B : Browser) (w w' : World) (e : Event) :
  step B w e = Some w' →
  (length (photos w') + length (pending cb_shoot (timers w'))
   ≤ length (photos w) + length (pending cb_shoot (timers w))
     + shutter_presses [e])%nat.
Proof.
  intros Hstep. destruct e; simpl in Hstep.
  - destruct (printing w) eqn:Hp; [done|]. injection Hstep as <-.
    destruct (takePhoto_spec B w Hp) as [-> | (fl & -> & Hfl & _ & -> & _)].
    { unfold shutter_presses. simpl. lia. }
    unfold pending. rewrite !filter_app, !length_app.
    assert (filter (λ tm, callback tm = cb_shoot) fl = []) as ->.
    { induction Hfl as [|x fl [Hx _] _ IH]; [done|].
      rewrite filter_cons_False, IH by congruence. done. }
    unfold shutter_presses. simpl. lia.
  - injection Hstep as <-. simpl. lia.
  - destruct (App_cards w !! k) as [card|]; [|done]. simpl in Hstep.
    destruct (decide _); [|done].
    destruct c; injection Hstep as <-; try (simpl; lia).
    rewrite photos_remove.
    destruct (save_effect_camera B (handleDelete (id (card_photo card)) w))
      as (Ht & _). unfold remove. rewrite Ht. simpl.
    pose proof (length_filter (λ p, id p ≠ id (card_photo card)) (photos w)).
    lia.
  - destruct (next_timer (timers w)) as [[tm rest]|] eqn:Hnext; [|done].
    injection Hstep as <-.
    apply next_timer_perm in Hnext.
    rewrite (pending_fired cb_shoot _ _ _ Hnext).
    set (w1 := set_timers rest _).
    destruct (callback tm) eqn:Hcb;
      [rewrite decide_False by done; simpl; lia|
      |rewrite decide_False by done; simpl; lia..].
    rewrite decide_True by done.
    destruct (videoRef_current B (clock w1)) as [video|] eqn:Hv.
    + destruct (shoot_spec B w1 video Hv) as (-> & _ & -> & _).
      unfold pending. rewrite filter_app, length_app. simpl. lia.
    + rewrite (shoot_without_video B w1 Hv). simpl. lia.
  - destruct (decide _); [|done]. injection Hstep as <-. simpl. lia.
Qed.

Lemma shutter_presses_cons (e : Event) (es : list Event) :
  shutter_presses (e :: es) = (shutter_presses [e] + shutter_presses es)%nat.
Proof.
  unfold shutter_presses. rewrite !filter_cons, filter_nil.
  case_decide; simpl; lia.
Qed.

Lemma run_counts (B : Browser) (es : list Event) (w w' : World) :
  run B w es = Some w' →
  (length (photos w') + length (pending cb_shoot (timers w'))
   ≤ length (photos w) + length (pending cb_shoot (timers w))
     + shutter_presses es)%nat.
Proof.
  revert w. induction es as [|e es IH]; intros w; simpl.
  { intros [= <-]. lia. }
  destruct (step B w e) as [w1|] eqn:Hstep; [|done]. simpl. intros Hrun.
  pose proof (step_counts B w w1 e Hstep). specialize (IH w1 Hrun).
  rewrite shutter_presses_cons. lia.
Qed.

(** X7. However clicks, timers and waits interleave, the store never
    holds more photos than the shutter was pressed. *)
Theorem photos_at_most_presses (B : Browser) (stored : option string)
    (es : list Event) (w : World) :
  run B (initial stored) es = Some w →
  (length (photos w) ≤ shutter_presses es)%nat.
Proof. intros Hrun. pose proof (run_counts B es _ _ Hrun). simpl in *. lia. Qed.

Lemma photos_at_most_presses_witness :
  ∃ w, run plain_browser (initial None) (shot ++ [click_flash] ++ shot) = Some w
       ∧ (length (photos w) ≤ 2)%nat.
Proof.
  eexists. split; [vm_compute; reflexivity|].
  apply (photos_at_most_presses plain_browser None
           (shot ++ [click_flash] ++ shot)).
  vm_compute. reflexivity.
Defined.

(** *** The invariant of a run *)















Lemma fired_not_other (l rest : list Timer) (tm : Timer) (cb : Callback) :
  l ≡ₚ tm :: rest → callback tm ≠ cb →
  Forall (λ x, callback x = cb → x ∈ rest) l.
Proof.
  intros Hperm Hcb. apply Forall_forall. intros x Hx Hxcb.
  rewrite Hperm in Hx. apply elem_of_cons in Hx as [-> | Hx]; done.
Qed.










(** *** A shutter that never comes back *)

Lemma step_stuck (B : Browser) (w w' : World) (e : Event) :
  printing w = true →
  pending cb_shoot (timers w) = [] → pending cb_printing_off (timers w) = [] →
  step B w e = Some w' →
  e ≠ click_shutter ∧ printing w' = true
  ∧ pending cb_shoot (timers w') = []
  ∧ pending cb_printing_off (timers w') = []
  ∧ photos w' `sublist_of` photos w.
Proof.
  intros Hpr Hno1 Hno2 Hstep. destruct e; simpl in Hstep.
  - by rewrite Hpr in Hstep.
  - by injection Hstep as <-.
  - destruct (App_cards w !! k) as [card|]; [|done]. simpl in Hstep.
    destruct (decide _); [|done].
    destruct c; injection Hstep as <-; try done.
    destruct (save_effect_camera B (handleDelete (id (card_photo card)) w))
      as (Ht & _ & Hp & _).
    rewrite photos_remove. unfold remove. rewrite Ht, Hp. simpl.
    split_and!; try done. apply sublist_filter.
  - destruct (next_timer (timers w)) as [[tm rest]|] eqn:Hnext; [|done].
    injection Hstep as <-. apply next_timer_perm in Hnext.
    pose proof (pending_fired cb_shoot _ _ _ Hnext) as Hf1.
    pose proof (pending_fired cb_printing_off _ _ _ Hnext) as Hf2.
    rewrite Hno1 in Hf1. rewrite Hno2 in Hf2. simpl in Hf1, Hf2.
    assert (pending cb_shoot rest = []) by (apply nil_length_inv; lia).
    assert (pending cb_printing_off rest = []) by (apply nil_length_inv; lia).
    destruct (callback tm) eqn:Hcb;
      [done|by rewrite decide_True in Hf1|by rewrite decide_True in Hf2|done].
  - destruct (decide _); [|done]. by injection Hstep as <-.
Qed.

(** X10. Once the camera is printing with neither a capture nor a
    re-arming timer pending (which is where a capture timer that finds no
    video element leaves it), it stays that way: no later run contains a
    press of the shutter, and no photo is added. *)
Theorem shutter_stays_disabled (B : Browser) (es : list Event)
    (w w' : World) :
  printing w = true →
  pending cb_shoot (timers w) = [] → pending cb_printing_off (timers w) = [] →
  run B w es = Some w' →
  printing w' = true ∧ shutter_presses es = 0%nat
  ∧ photos w' `sublist_of` photos w.
Proof.
  revert w. induction es as [|e es IH]; intros w Hpr Hno1 Hno2; simpl.
  { by intros [= <-]. }
  destruct (step B w e) as [w1|] eqn:Hstep; [|done]. simpl. intros Hrun.
  destruct (step_stuck B w w1 e Hpr Hno1 Hno2 Hstep)
    as (He & Hpr1 & Hn1 & Hn2 & Hsub).
  destruct (IH w1 Hpr1 Hn1 Hn2 Hrun) as (Hpr' & Hzero & Hsub').
  split_and!; [done| |by etrans].
  rewrite shutter_presses_cons, Hzero. unfold shutter_presses.
  by rewrite filter_cons_False, filter_nil.
Qed.

Lemma shutter_stays_disabled_witness :
  ∃ w, run vanishing_video_browser (initial None)
         [click_shutter; timeout; timeout] = Some w
       ∧ photos w = []
       ∧ run vanishing_video_browser w [idle 5000; click_shutter] = None
       ∧ printing <$> run vanishing_video_browser w [idle 5000; click_flash]
         = Some true.
Proof.
  eexists. split; [vm_compute; reflexivity|].
  split; [reflexivity|]. split; [reflexivity|].
  destruct (run vanishing_video_browser _ [idle 5000; click_flash])
    as [w'|] eqn:Hrun; [|by vm_compute in Hrun].
  apply shutter_stays_disabled in Hrun as (Hpr & _); [|reflexivity..].
  simpl. by rewrite Hpr.
Defined.

(** * Further properties of the frame normalizer, the composer and the
    export actions *)

(** X11. Turning the video by a quarter swaps the two offsets of the crop
    and keeps its side; a square video is taken whole. *)
Theorem processImage_transpose (w h : Z) :
  ∃ sx sy side rest rest',
    canvas_ops (processImage_canvas (mkVideo w h))
    = drawImage sx sy side side 0 0 600 600 :: rest
    ∧ canvas_ops (processImage_canvas (mkVideo h w))
      = drawImage sy sx side side 0 0 600 600 :: rest'
    ∧ rest = rest'
    ∧ (w = h → (sx == 0 ∧ sy == 0 ∧ side == inject_Z w)%Q).
Proof.
  eexists _, _, _, _, _. split; [reflexivity|].
  split; [unfold processImage_canvas; simpl; by rewrite (Z.min_comm h w)|].
  split; [done|]. intros ->. simpl. rewrite Z.min_id, Z.sub_diag.
  split_and!; unfold Qeq; simpl; lia.
Qed.

Lemma processImage_transpose_witness :
  ∃ sx sy side rest,
    canvas_ops (processImage_canvas (mkVideo 720 720))
    = drawImage sx sy side side 0 0 600 600 :: rest
    ∧ (sx == 0 ∧ sy == 0 ∧ side == 720)%Q.
Proof.
  destruct (processImage_transpose 720 720)
    as (sx & sy & side & rest & rest' & H1 & _ & _ & Hsq).
  exists sx, sy, side, rest. split; [exact H1|by apply Hsq].
Defined.



(** *** Runs of a card *)

Lemma card_inv_initial (E : Exporter) (photo : Photo) :
  card_inv E photo card_initial.
Proof. unfold card_inv. simpl. split_and!; by try constructor. Qed.

Lemma card_step_inv (E : Exporter) (photo : Photo) (s s' : CardState)
    (e : CardEvent) :
  card_inv E photo s → card_step E photo s e = Some s' → card_inv E photo s'.
Proof.
  intros (Hdl & Hclip & Hcopied & Hproc) Hstep.
  destruct e; simpl in Hstep.
  - destruct (isProcessing s) eqn:Hp; [done|]. injection Hstep as <-.
    unfold handleCopy, card_inv.
    destruct (generatePolaroidCanvas E photo) as [err|c] eqn:Hgen; simpl.
    { split_and!; try done. }
    destruct (toBlob_png E c) as [blob|] eqn:Hblob; simpl.
    + destruct (clipboard_write E blob) eqn:Hwr; simpl.
      * split_and!; try done. constructor; [|done]. by exists c.
      * split_and!; done.
    + split_and!; try done. intros _. by exists c.
  - destruct (isProcessing s) eqn:Hp; [done|]. injection Hstep as <-.
    unfold handleDownload, card_inv.
    destruct (generatePolaroidCanvas E photo) as [err|c] eqn:Hgen; simpl.
    { split_and!; try done. }
    split_and!; try done. constructor; [|done]. by exists c.
  - destruct (copied_resets s) as [|n]; [done|]. injection Hstep as <-.
    unfold card_inv. simpl. split_and!; done.
Qed.

Lemma card_run_inv (E : Exporter) (photo : Photo) (es : list CardEvent)
    (s s' : CardState) :
  card_inv E photo s → card_run E photo s es = Some s' → card_inv E photo s'.
Proof.
  revert s. induction es as [|e es IH]; intros s Hinv; simpl.
  { by intros [= <-]. }
  destruct (card_step E photo s e) as [s1|] eqn:Hstep; [|done]. simpl.
  apply IH. by eapply card_step_inv.
Qed.

(** X13. Whatever is clicked on a card, every file it ever offered for
    download is named [polaroid-{id}.png] after its photo and holds the
    PNG encoding of the composite of that photo; when the composer fails,
    nothing was ever offered. *)
Theorem downloads_named_after_photo (E : Exporter) (photo : Photo)
    (es : list CardEvent) (s : CardState) :
  card_run E photo card_initial es = Some s →
  Forall (λ d, ∃ c, generatePolaroidCanvas E photo = inr c
                    ∧ d = ("polaroid-" +:+ id photo +:+ ".png",
                           toDataURL_png E c))
         (downloads s)
  ∧ (∀ err, generatePolaroidCanvas E photo = inl err → downloads s = []).
Proof.
  intros Hrun.
  destruct (card_run_inv E photo es _ _ (card_inv_initial E photo) Hrun)
    as (Hdl & _).
  split; [done|]. intros err Herr.
  destruct (downloads s) as [|d l]; [done|].
  apply Forall_cons in Hdl as [(c & Hc & _) _]. congruence.
Qed.

Lemma downloads_named_after_photo_witness :
  ∃ s, card_run plain_exporter (new_photo 7 7 "data:a") card_initial
         [press_download; press_copy; press_download] = Some s
       ∧ (fst <$> downloads s) = ["polaroid-7.png"; "polaroid-7.png"]%string.
Proof.
  eexists. split; [vm_compute; reflexivity|].
  pose proof (downloads_named_after_photo plain_exporter
                (new_photo 7 7 "data:a")
                [press_download; press_copy; press_download] _ eq_refl)
    as [Hdl _].
  reflexivity.
Defined.

(** X14. Whatever is clicked on a card, a blob is on its clipboard log
    only if the composer succeeded, [toBlob] handed that blob over and the
    clipboard accepted it; and the card shows [copied] only after such a
    write. *)
Theorem copied_means_clipboard_written (E : Exporter) (photo : Photo)
    (es : list CardEvent) (s : CardState) :
  card_run E photo card_initial es = Some s →
  Forall (λ b, ∃ c, generatePolaroidCanvas E photo = inr c
                    ∧ toBlob_png E c = Some b
                    ∧ clipboard_write E b = true)
         (clipboard s)
  ∧ (copied s = true → clipboard s ≠ []).
Proof.
  intros Hrun.
  by destruct (card_run_inv E photo es _ _ (card_inv_initial E photo) Hrun)
    as (_ & Hclip & Hcopied & _).
Qed.

Lemma copied_means_clipboard_written_witness :
  ∃ s, card_run plain_exporter (new_photo 7 7 "data:a") card_initial
         [press_copy] = Some s
       ∧ copied s = true ∧ clipboard s = ["png-blob"%string].
Proof.
  eexists. split; [vm_compute; reflexivity|].
  pose proof (copied_means_clipboard_written plain_exporter
                (new_photo 7 7 "data:a") [press_copy] _ eq_refl) as [_ Hc].
  split; reflexivity.
Defined.

Lemma card_step_stuck (E : Exporter) (photo : Photo) (s s' : CardState)
    (e : CardEvent) :
  isProcessing s = true → card_step E photo s e = Some s' →
  e = copied_timeout ∧ isProcessing s' = true
  ∧ clipboard s' = clipboard s ∧ downloads s' = downloads s.
Proof.
  intros Hp Hstep. destruct e; simpl in Hstep; rewrite ?Hp in Hstep; try done.
  destruct (copied_resets s); [done|]. by injection Hstep as <-.
Qed.

(** X15. A card is left processing only by a copy whose [toBlob] handed
    over no blob; from then on both export buttons stay disabled: only
    pending [copied] timers can still fire, and nothing more is copied or
    downloaded. *)
Theorem export_stuck_after_null_blob (E : Exporter) (photo : Photo)
    (es es' : list CardEvent) (s s' : CardState) :
  card_run E photo card_initial es = Some s → isProcessing s = true →
  card_run E photo s es' = Some s' →
  (∃ c, generatePolaroidCanvas E photo = inr c ∧ toBlob_png E c = None)
  ∧ Forall (λ e, e = copied_timeout) es'
  ∧ isProcessing s' = true
  ∧ clipboard s' = clipboard s ∧ downloads s' = downloads s.
Proof.
  intros Hrun Hp Hrun'.
  destruct (card_run_inv E photo es _ _ (card_inv_initial E photo) Hrun)
    as (_ & _ & _ & Hproc).
  split; [by apply Hproc|]. clear Hrun Hproc.
  revert s Hp Hrun'. induction es' as [|e es' IH]; intros s Hp; simpl.
  { by intros [= <-]. }
  destruct (card_step E photo s e) as [s1|] eqn:Hstep; [|done]. simpl.
  intros Hrun'.
  destruct (card_step_stuck E photo s s1 e Hp Hstep) as (-> & Hp1 & Hc & Hd).
  destruct (IH s1 Hp1 Hrun') as (Hall & Hp' & Hc' & Hd').
  split_and!; [by constructor|done|congruence|congruence].
Qed.

Lemma export_stuck_after_null_blob_witness :
  ∃ s, card_run blobless_exporter (new_photo 7 7 "data:a") card_initial
         [press_download; press_copy] = Some s
       ∧ isProcessing s = true
       ∧ card_run blobless_exporter (new_photo 7 7 "data:a") s
           [press_download] = None.
Proof.
  eexists. split; [vm_compute; reflexivity|]. split; [reflexivity|].
  destruct (card_run blobless_exporter _ _ [press_download])
    as [s'|] eqn:Hrun; [|done].
  eapply (export_stuck_after_null_blob blobless_exporter
            (new_photo 7 7 "data:a") [press_download; press_copy])
    in Hrun as (_ & Hall & _); [|vm_compute; reflexivity|reflexivity].
  apply Forall_cons in Hall as [Habs _]. discriminate Habs.
Defined.

(** *** The flash overlay *)

Lemma shoot_isFlashing (B : Browser) (w : World) :
  isFlashing (run_callback B cb_shoot w) = isFlashing w.
Proof.
  simpl. destruct (videoRef_current B _); [|done].
  unfold add, save_effect. by destruct (setItem_accepts B _).
Qed.

Lemma step_flash (B : Browser) (w w' : World) (e : Event) :
  step B w e = Some w' →
  (isFlashing w = true →
   ∃ tm, tm ∈ timers w ∧ callback tm = cb_flash_off
         ∧ due tm ≤ clock w + 100) →
  isFlashing w' = true →
  ∃ tm, tm ∈ timers w' ∧ callback tm = cb_flash_off
        ∧ due tm ≤ clock w' + 100.
Proof.
  intros Hstep Hinv. destruct e; simpl in Hstep.
  - destruct (printing w) eqn:Hp; [done|]. injection Hstep as <-.
    unfold takePhoto. destruct (videoRef_current B _); [|done].
    rewrite Hp. destruct (flash w); simpl.
    + intros _. exists (mkTimer (clock w + 100) cb_flash_off).
      split_and!; [|done|simpl; lia].
      rewrite !elem_of_app, !list_elem_of_singleton. auto.
    + intros Hf. destruct (Hinv Hf) as (tm & Hin & Hcb & Hdue).
      exists tm. split_and!; try done. apply elem_of_app. by left.
  - by injection Hstep as <-.
  - destruct (App_cards w !! k) as [card|]; [|done]. simpl in Hstep.
    destruct (decide _); [|done].
    destruct c; injection Hstep as <-; try done.
    unfold remove, save_effect. by destruct (setItem_accepts B _).
  - destruct (next_timer (timers w)) as [[tm rest]|] eqn:Hnext; [|done].
    injection Hstep as <-. apply next_timer_perm in Hnext.
    set (w1 := set_timers rest _).
    assert (Hw1 : callback tm ≠ cb_flash_off → isFlashing w = true →
              ∃ tm', tm' ∈ timers w1 ∧ callback tm' = cb_flash_off
                     ∧ due tm' ≤ clock w1 + 100).
    { intros Hcb Hf. destruct (Hinv Hf) as (tm' & Hin & Hcb' & Hdue).
      exists tm'. split_and!; [|done|simpl; lia].
      pose proof (fired_not_other _ _ tm cb_flash_off Hnext Hcb) as Hkeep.
      eapply Forall_forall in Hkeep; [|exact Hin]. by apply Hkeep. }
    destruct (callback tm) eqn:Hcb; [done| |by apply Hw1..].
    rewrite shoot_isFlashing. intros Hf.
    destruct (Hw1 ltac:(done) Hf) as (tm' & Hin & Hcb' & Hdue).
    exists tm'.
    destruct (videoRef_current B (clock w1)) as [video|] eqn:Hv.
    + destruct (shoot_spec B w1 video Hv) as (_ & _ & -> & _ & ->).
      split_and!; [|done|done]. apply elem_of_app. by left.
    + by rewrite (shoot_without_video B w1 Hv).
  - destruct (decide _) as [[Hdt _]|]; [|done]. injection Hstep as <-.
    simpl. intros Hf. destruct (Hinv Hf) as (tm & Hin & Hcb & Hdue).
    exists tm. split_and!; [done|done|lia].
Qed.

(** X16. The white flash overlay cannot stay on: whenever it is shown, a
    timer that switches it off is pending and due within 100 ms. *)
Theorem flash_is_always_cleared (B : Browser) (stored : option string)
    (es : list Event) (w : World) :
  run B (initial stored) es = Some w → isFlashing w = true →
  ∃ tm, tm ∈ timers w ∧ callback tm = cb_flash_off
        ∧ due tm ≤ clock w + 100.
Proof.
  assert (Hgen : ∀ es w0 w, run B w0 es = Some w →
            (isFlashing w0 = true →
             ∃ tm, tm ∈ timers w0 ∧ callback tm = cb_flash_off
                   ∧ due tm ≤ clock w0 + 100) →
            isFlashing w = true →
            ∃ tm, tm ∈ timers w ∧ callback tm = cb_flash_off
                  ∧ due tm ≤ clock w + 100).
  { clear es w. induction es as [|e es IH]; intros w0 w; simpl.
    { intros [= <-]. auto. }
    destruct (step B w0 e) as [w1|] eqn:Hstep; [|done]. simpl.
    intros Hrun Hinv. apply (IH w1 w Hrun). by eapply step_flash. }
  intros Hrun. apply (Hgen es _ _ Hrun). done.
Qed.

Lemma flash_is_always_cleared_witness :
  ∃ w, run plain_browser (initial None) [click_shutter; idle 50] = Some w
       ∧ isFlashing w = true
       ∧ ∃ tm, tm ∈ timers w ∧ callback tm = cb_flash_off.
Proof.
  eexists. split; [vm_compute; reflexivity|]. split; [reflexivity|].
  destruct (flash_is_always_cleared plain_browser None
              [click_shutter; idle 50] _ ltac:(vm_compute; reflexivity)
              eq_refl) as (tm & Hin & Hcb & _).
  by exists tm.
Defined.
